(** * vue-termui: renderer host adapter and process lifecycle controller

    A shallow embedding of [packages/termui/src/index.ts]: the node
    options handed to Vue's [createRenderer] ([removeNode], [patchProp],
    [insert], [nextSibling], [setElementText], [setText]) and the
    lifecycle part of [createApp] ([waitUntilExit], [unmount] and the
    callback registered with [onExit]).

    JavaScript objects live in a store and are named by references, so
    that the aliasing the source relies on (a child array spliced while
    [Array.prototype.map] walks it, a node that is its own parent's child)
    is the aliasing of the model. *)

From Stdlib Require Import ZArith Ascii String List Lia.
From stdpp Require Import gmap strings list fin_maps pretty.

Local Open Scope string_scope.

(** ** JavaScript arrays of references *)

Module JsArray.

(** [Array.prototype.indexOf]: the first index holding [x], or [-1]. *)
Fixpoint indexOf (x : nat) (l : list nat) : Z :=
  match l with
  | [] => (-1)%Z
  | y :: l' =>
      if Nat.eqb y x then 0%Z
      else let i := indexOf x l' in
           if (i <? 0)%Z then (-1)%Z else (i + 1)%Z
  end.

(** The start index of [splice] and [slice], made relative to the array:
    a negative one counts from the end, and both are clamped. *)
Definition relativeStart (start : Z) (len : nat) : nat :=
  if (start <? 0)%Z then Z.to_nat (Z.max (Z.of_nat len + start) 0)
  else Z.to_nat (Z.min start (Z.of_nat len)).

(** [arr.splice(start, 1)]: what is left in [arr]. *)
Definition splice1 (start : Z) (l : list nat) : list nat :=
  delete (relativeStart start (length l)) l.

(** [arr.splice(start, 0, x)]: [x] put in front of index [start]. *)
Definition spliceIn (start : Z) (x : nat) (l : list nat) : list nat :=
  let k := relativeStart start (length l) in
  take k l ++ x :: drop k l.

(** [arr[i]] for an integer [i]: [undefined] (here [None]) out of range. *)
Definition at_index (l : list nat) (i : Z) : option nat :=
  if (i <? 0)%Z then None else l !! Z.to_nat i.

End JsArray.

(** ** The node store *)

Module Dom.
Import JsArray.

(** Values the reconciler hands over as props: opaque but comparable. *)
Inductive JSValue :=
  | VUndefined
  | VNull
  | VStr (s : string)
  | VNum (z : Z)
  | VObj (id : nat)
  | VFun (id : nat).

(** [DOMNode] of [./dom] as index.ts reads and writes it. [nodeName] is
    ["#text"], ["#comment"] or an element name; a text or comment node
    has no children, an element has no value. References are naturals. *)
Record DOMNode := mkNode {
  nodeName : string;
  nodeValue : string;
  parentNode : option nat;
  childNodes : list nat;
  style : JSValue;
  internal_transform : JSValue;
  yogaNode : option nat
}.

Definition set_parentNode (p : option nat) (n : DOMNode) : DOMNode :=
  mkNode (nodeName n) (nodeValue n) p (childNodes n)
         (style n) (internal_transform n) (yogaNode n).

Definition set_childNodes (cs : list nat) (n : DOMNode) : DOMNode :=
  mkNode (nodeName n) (nodeValue n) (parentNode n) cs
         (style n) (internal_transform n) (yogaNode n).

Definition set_nodeValue (v : string) (n : DOMNode) : DOMNode :=
  mkNode (nodeName n) v (parentNode n) (childNodes n)
         (style n) (internal_transform n) (yogaNode n).

Definition set_style (v : JSValue) (n : DOMNode) : DOMNode :=
  mkNode (nodeName n) (nodeValue n) (parentNode n) (childNodes n)
         v (internal_transform n) (yogaNode n).

Definition set_internal_transform (v : JSValue) (n : DOMNode) : DOMNode :=
  mkNode (nodeName n) (nodeValue n) (parentNode n) (childNodes n)
         (style n) v (yogaNode n).

(** Calls that leave the node store: the yoga layout engine, the style
    bridge of [./styles] and the console. They are logged in call order. *)
Inductive Effect :=
  | YogaRemoveChild (parent child : nat)
  | YogaUnsetMeasureFunc (y : nat)
  | YogaFreeRecursive (y : nat)
  | ApplyStyles (y : nat) (v : JSValue)
  | ConsoleError (msg text : string).

Record World := mkWorld {
  heap : gmap nat DOMNode;
  effects : list Effect
}.

(** Commands: state passing, [None] when the model is stuck (a reference
    that names no object, which JavaScript cannot build) or out of fuel. *)
Definition M (A : Type) : Type := World -> option (A * World).

Definition ret {A} (a : A) : M A := fun w => Some (a, w).

Definition bind {A B} (m : M A) (k : A -> M B) : M B :=
  fun w => match m w with
           | Some (a, w') => k a w'
           | None => None
           end.

Notation "'let*' x := m 'in' k" := (bind m (fun x => k))
  (at level 10, x name, m at level 100, k at level 200).
Notation "m ;; k" := (bind m (fun _ => k))
  (at level 100, k at level 200, right associativity).

Definition getNode (r : nat) : M DOMNode :=
  fun w => match heap w !! r with
           | Some n => Some (n, w)
           | None => None
           end.

Definition modifyNode (r : nat) (f : DOMNode -> DOMNode) : M unit :=
  fun w => match heap w !! r with
           | Some n => Some (tt, mkWorld (<[r := f n]> (heap w)) (effects w))
           | None => None
           end.

Definition emit (e : Effect) : M unit :=
  fun w => Some (tt, mkWorld (heap w) (effects w ++ [e])).

Definition when (b : bool) (m : M unit) : M unit :=
  if b then m else ret tt.

(** [new C(...)]: the object gets a reference no object has yet. *)
Definition alloc (n : DOMNode) : M nat :=
  fun w => let r := fresh (dom (heap w)) in
           Some (r, mkWorld (<[r := n]> (heap w)) (effects w)).

(** A loop over the indices [ks], in order. *)
Fixpoint forIndices (body : nat -> M unit) (ks : list nat) : M unit :=
  match ks with
  | [] => ret tt
  | k :: ks' => body k ;; forIndices body ks'
  end.

(** One visit of [Array.prototype.map]: index [k] is skipped if the array
    no longer has it, and its element is read now, not when the loop
    started. *)
Definition visit (f : nat -> M unit) (owner k : nat) : M unit :=
  let* o' := getNode owner in
  match childNodes o' !! k with
  | Some c => f c
  | None => ret tt
  end.

(** [owner.childNodes.map(f)], run for its effects: the length is read
    once, then the indices below it are visited in order on the live
    array. *)
Definition mapChildNodes (f : nat -> M unit) (owner : nat) : M unit :=
  let* o := getNode owner in
  forIndices (visit f owner) (seq 0 (length (childNodes o))).

(** Lines 22 to 37 of [removeNode]: the part after the recursion. *)
Definition detach (node : nat) : M unit :=
  let* n := getNode node in
  match parentNode n with
  | None => ret tt
  | Some p =>
      let* pn := getNode p in
      let selfIndex := indexOf node (childNodes pn) in
      when (-1 <? selfIndex)%Z
           (modifyNode p (fun pn' => set_childNodes (splice1 selfIndex (childNodes pn')) pn')) ;;
      match yogaNode n with
      | Some y =>
          match yogaNode pn with
          | Some py => emit (YogaRemoveChild py y)
          | None => ret tt
          end ;;
          emit (YogaUnsetMeasureFunc y) ;;
          emit (YogaFreeRecursive y)
      | None => ret tt
      end ;;
      modifyNode node (set_parentNode None)
  end.

Definition isElementName (name : string) : bool :=
  negb (String.eqb name "#comment") && negb (String.eqb name "#text").

(** [removeNode] (lines 16 to 40). The recursion follows the store, not a
    Rocq term, hence the fuel: one unit per nesting level. *)
Fixpoint removeNode (fuel : nat) (node : nat) : M unit :=
  match fuel with
  | O => fun _ => None
  | S fuel' =>
      let* n := getNode node in
      when (isElementName (nodeName n))
           (mapChildNodes (removeNode fuel') node) ;;
      detach node
  end.

(** Modelled from the spec: the constructor of [TextNode] is in [./dom],
    which is missing; the data model gives a text node a string value, no
    children, and [createText] returns it unattached. Its [nodeName] is
    the one [setElementText] and [removeNode] test for. *)
Definition TextNode (text : string) : DOMNode :=
  mkNode "#text" text None [] VUndefined VUndefined None.

(** Modelled from the spec: [DOMElement.insertNode] is in [./dom], which is
    missing. Section 4.1: [insert(node, parent, anchor?)] inserts [node]
    as a child of [parent], immediately before [anchor] if [anchor] is
    given and is currently a child of [parent], appended otherwise, and
    sets [node.parent = parent]. Section 3: a node has one parent and
    appears in its parent's child sequence at most once; section 4.2: the
    call must be idempotent-safe on a node that is already correctly
    positioned. Hence a node that has a parent is first taken out of that
    parent's child sequence (the excision of lines 23 to 27), and then
    inserted. The layout calls of an insertion are not modelled. *)
Definition insertNode (parent el : nat) (anchor : option nat) : M unit :=
  let* n := getNode el in
  match parentNode n with
  | Some q =>
      let* qn := getNode q in
      let selfIndex := indexOf el (childNodes qn) in
      when (-1 <? selfIndex)%Z
           (modifyNode q (fun qn' => set_childNodes (splice1 selfIndex (childNodes qn')) qn'))
  | None => ret tt
  end ;;
  let* pn := getNode parent in
  let index := match anchor with
               | Some a => indexOf a (childNodes pn)
               | None => (-1)%Z
               end in
  modifyNode parent
    (fun pn' => set_childNodes
                  (if (-1 <? index)%Z then spliceIn index el (childNodes pn')
                   else childNodes pn' ++ [el]) pn') ;;
  modifyNode el (set_parentNode (Some parent)).

(** How a renderer option ends: it returns, or it throws the [TypeError]
    of a property read on [undefined]. *)
Inductive Completion :=
  | Normal
  | ThrowTypeError.

(** The value of [this] inside a renderer option. The options object is
    handed to [createRenderer] and is not exported: [this] is that
    object when an option is called as a method of it, and [undefined]
    when the function is called on its own, which is how the renderer
    calls the options it has destructured. *)
Inductive This :=
  | ThisUndefined
  | ThisOptions.

(** The renderer options of lines 46 to 108. *)
Module NodeOps.

Definition patchProp (el : nat) (key : string) (prevValue nextValue : JSValue)
  : M unit :=
  if String.eqb key "style" then
    modifyNode el (set_style nextValue) ;;
    let* n := getNode el in
    match yogaNode n with
    | Some y => emit (ApplyStyles y nextValue)
    | None => ret tt
    end
  else if String.eqb key "internal_transform" then
    modifyNode el (set_internal_transform nextValue)
  else ret tt.

Definition insert (el parent : nat) (anchor : option nat) : M unit :=
  insertNode parent el anchor.

Definition remove (fuel : nat) (node : nat) : M unit :=
  removeNode fuel node.

Definition parentNode (node : nat) : M (option nat) :=
  let* n := getNode node in
  ret (Dom.parentNode n).

Definition nextSibling (node : nat) : M (option nat) :=
  let* n := getNode node in
  match Dom.parentNode n with
  | None => ret None
  | Some p =>
      let* pn := getNode p in
      let index := indexOf node (childNodes pn) in
      ret (if (0 <=? index)%Z then at_index (childNodes pn) (index + 1)
           else None)
  end.

(** The callback of [find] in [setElementText]. *)
Definition isTextNode (h : gmap nat DOMNode) (c : nat) : bool :=
  match h !! c with
  | Some cn => String.eqb (nodeName cn) "#text"
  | None => false
  end.

Definition findTextNode (cs : list nat) : M (option nat) :=
  fun w => Some (List.find (isTextNode (heap w)) cs, w).

Definition setElementText (node : nat) (text : string) : M unit :=
  let* n := getNode node in
  let* textNode := findTextNode (childNodes n) in
  match textNode with
  | Some t => modifyNode t (set_nodeValue text)
  | None =>
      let* t := alloc (TextNode text) in
      insertNode node t None
  end.

Definition setText (this : This) (node : nat) (text : string)
  : M Completion :=
  let* n := getNode node in
  if String.eqb (nodeName n) "#text" || String.eqb (nodeName n) "#comment"
  then modifyNode node (set_nodeValue text) ;;
       ret Normal
  else emit (ConsoleError "TODO: setText" text) ;;
       match this with
       | ThisOptions =>
           setElementText node text ;;
           ret Normal
       | ThisUndefined => ret ThrowTypeError
       end.

Definition cloneNode (node : nat) : M nat :=
  emit (ConsoleError "TODO: clone" EmptyString) ;;
  ret node.

End NodeOps.

End Dom.

(** ** The lifecycle controller of [createApp] *)

Module Lifecycle.

(** The double quote of the message template. *)
Definition dquote : string := String "034"%char EmptyString.

(** [TuiError] (lines 257 to 266). The message is [None] where the
    text of the code is not modelled, see [numberToString]. *)
Record TuiError := mkTuiError {
  message : option string;
  code : option Z;
  signal : option string
}.

(** The text of a number in a template, for the numbers the model has:
    an integer is written with its decimal digits as long as it is a
    safe integer (below [2^53] in magnitude). Beyond that the digits the
    language prints are those of the nearest binary64 number, then an
    exponent: not modelled. *)
Definition numberToString (z : Z) : option string :=
  if (Z.abs z <? 2 ^ 53)%Z then Some (pretty z) else None.

Definition newTuiError (c : option Z) (s : option string) : TuiError :=
  let sig := match s with Some name => name | None => "null" end in
  let suffix := match c with
                | Some z =>
                    if (z =? 0)%Z then Some EmptyString
                    else (fun digits => "(" ++ digits ++ ")")
                           <$> numberToString z
                | None => Some EmptyString
                end in
  mkTuiError ((fun tail => "Program Interrupted with " ++ dquote ++ sig
                           ++ dquote ++ " " ++ tail) <$> suffix) c s.

Inductive PromiseState :=
  | Pending
  | Fulfilled
  | Rejected (reason : TuiError).

(** What the controller does to its surroundings, in call order. The two
    settlement events are logged when a promise leaves [Pending]. *)
Inductive Event :=
  | CursorHide
  | CursorShow
  | LogClear
  | LogDone
  | StdoutOnResize
  | StdoutOffResize
  | RemoveOnExitListener
  | BaseMount
  | BaseUnmount
  | SetInterval (timer : nat)
  | ClearInterval (timer : nat)
  | ConsoleLog (c : option Z) (s : option string)
  | Resolved (p : nat)
  | RejectedWith (p : nat) (reason : TuiError).

(** The variables [createApp] closes over. Promises are objects: they
    live in [promises] and a handle is an index into it. A settling
    function is [noop] ([None]) or belongs to one promise. *)
Record App := mkApp {
  promises : list PromiseState;
  exitPromise : option nat;
  resolveExitPromise : option nat;
  rejectExitPromise : option nat;
  interval : option nat;
  trace : list Event
}.

Definition log (e : Event) (a : App) : App :=
  mkApp (promises a) (exitPromise a) (resolveExitPromise a)
        (rejectExitPromise a) (interval a) (trace a ++ [e]).

(** Calling a promise's settling function: it acts on a pending promise
    only, as the language has it. *)
Definition settle (f : option nat) (s : PromiseState) (e : nat -> Event)
  (a : App) : App :=
  match f with
  | None => a
  | Some p =>
      match promises a !! p with
      | Some Pending =>
          mkApp (<[p := s]> (promises a)) (exitPromise a)
                (resolveExitPromise a) (rejectExitPromise a) (interval a)
                (trace a ++ [e p])
      | _ => a
      end
  end.

Definition callResolve (a : App) : App :=
  settle (resolveExitPromise a) Fulfilled Resolved a.

Definition callReject (reason : TuiError) (a : App) : App :=
  settle (rejectExitPromise a) (Rejected reason)
         (fun p => RejectedWith p reason) a.

(** The one option of [TuiAppOptions] the controller reads; absent means
    the default [true]. *)
Record TuiAppOptions := mkOptions {
  opt_waitUntilExit : option bool
}.

(** The timer handle [setInterval] returns. *)
Definition keepAlive : nat := 0.

Definition createApp (o : TuiAppOptions) : App :=
  let waitUntilExit := match opt_waitUntilExit o with
                       | Some b => b
                       | None => true
                       end in
  if waitUntilExit
  then mkApp [] None None None (Some keepAlive) [SetInterval keepAlive]
  else mkApp [] None None None None [].

Definition mount (a : App) : App :=
  log BaseMount (log StdoutOnResize (log LogClear (log CursorHide a))).

Definition unmount (a : App) : App :=
  log BaseUnmount
      (log LogDone (log RemoveOnExitListener (log StdoutOffResize a))).

(** [waitUntilExit] (lines 207 to 215): the promise and its handle. *)
Definition waitUntilExit (a : App) : nat * App :=
  match exitPromise a with
  | Some p => (p, a)
  | None =>
      let p := length (promises a) in
      (p, mkApp (promises a ++ [Pending]) (Some p) (Some p) (Some p)
                (interval a) (trace a))
  end.

Definition isSIGINT (s : option string) : bool :=
  match s with
  | Some name => String.eqb name "SIGINT"
  | None => false
  end.

(** [code !== 0] for a nullable integer. *)
Definition codeNotZero (c : option Z) : bool :=
  match c with
  | Some z => negb (z =? 0)%Z
  | None => true
  end.

(** The callback handed to [onExit] (lines 222 to 235). *)
Definition exitHandler (c : option Z) (s : option string) (a : App) : App :=
  let a0 := log (ConsoleLog c s) a in
  match codeNotZero c, interval a0 with
  | true, Some timer =>
      let a1 := log (ClearInterval timer) a0 in
      let a2 := if isSIGINT s then callResolve a1
                else callReject (newTuiError c s) a1 in
      unmount (log CursorShow a2)
  | _, _ => a0
  end.

(** The calls the embedder and the process can make on an app, to speak
    of the states an app can be in. *)
Inductive Op :=
  | OpMount
  | OpUnmount
  | OpWaitUntilExit
  | OpExit (c : option Z) (s : option string).

Definition step (a : App) (op : Op) : App :=
  match op with
  | OpMount => mount a
  | OpUnmount => unmount a
  | OpWaitUntilExit => snd (waitUntilExit a)
  | OpExit c s => exitHandler c s a
  end.

Definition run (ops : list Op) (a : App) : App := fold_left step ops a.

Definition isExit (op : Op) : bool :=
  match op with
  | OpExit _ _ => true
  | _ => false
  end.

(** [waitUntilExit()] has been called and its promise [p] is pending. *)
Definition waiting (a : App) (p : nat) : Prop :=
  exitPromise a = Some p /\ resolveExitPromise a = Some p /\
  rejectExitPromise a = Some p /\ promises a !! p = Some Pending.

#[global] Instance TuiError_eq_dec : EqDecision TuiError.
Proof. solve_decision. Defined.

#[global] Instance Event_eq_dec : EqDecision Event.
Proof. solve_decision. Defined.

(** [e1] occurs in the trace and [e2] occurs after its first occurrence. *)
Fixpoint occursBefore (e1 e2 : Event) (tr : list Event) : bool :=
  match tr with
  | [] => false
  | e :: tr' =>
      if decide (e = e1) then bool_decide (e2 ∈ tr')
      else occursBefore e1 e2 tr'
  end.

End Lifecycle.

(** ** Stores, well-formedness and the tree invariant *)

Module DomSpec.
Import JsArray Dom.
Local Open Scope list_scope.

(** The array without the first occurrence of [x]. *)
Fixpoint removeFirst (x : nat) (l : list nat) : list nat :=
  match l with
  | [] => []
  | y :: l' => if Nat.eqb y x then l' else y :: removeFirst x l'
  end.

(** The node store after [detach]: [node] is gone from the array of [p]
    and has no parent. *)
Definition unlink (node p : nat) (h : gmap nat DOMNode) : gmap nat DOMNode :=
  alter (set_parentNode None) node
    (alter (fun pn => set_childNodes (removeFirst node (childNodes pn)) pn) p h).

(** The yoga calls of lines 29 to 33. *)
Definition yogaRelease (n pn : DOMNode) : list Effect :=
  match yogaNode n with
  | Some y =>
      match yogaNode pn with
      | Some py => [YogaRemoveChild py y]
      | None => []
      end ++ [YogaUnsetMeasureFunc y; YogaFreeRecursive y]
  | None => []
  end.

(** The object at reference [r] after [unlink node p], from the one before. *)
Definition unlinked (node p r : nat) (n : DOMNode) : DOMNode :=
  let n1 := if decide (p = r)
            then set_childNodes (removeFirst node (childNodes n)) n
            else n in
  if decide (node = r) then set_parentNode None n1 else n1.

(** What [removeNode] can do to a node: drop children, lose its parent. *)
Definition node_shrink (n n' : DOMNode) : Prop :=
  nodeName n' = nodeName n /\
  (parentNode n' = parentNode n \/ parentNode n' = None) /\
  childNodes n' `sublist_of` childNodes n /\
  yogaNode n' = yogaNode n.

Definition shrink (w w' : World) : Prop :=
  forall r, option_Forall2 node_shrink (heap w !! r) (heap w' !! r).

(** Every reference held by a node names an object. *)
Definition node_closed (h : gmap nat DOMNode) (n : DOMNode) : Prop :=
  match parentNode n with
  | Some p => is_Some (h !! p)
  | None => True
  end /\
  Forall (fun c => is_Some (h !! c)) (childNodes n).

Definition closed (w : World) : Prop :=
  map_Forall (fun _ n => node_closed (heap w) n) (heap w).

(** The child arrays form no cycle: [rk] decreases from a node to its
    children. *)
Definition ranked (rk : nat -> nat) (w : World) : Prop :=
  map_Forall (fun r n => Forall (fun c => rk c < rk r) (childNodes n)) (heap w).

(** Tree consistency at the node [n] stored under [r]: a parent
    reference names a node whose child array holds [r], once at most. *)
Definition consistent_at (h : gmap nat DOMNode) (r : nat) (n : DOMNode)
  : Prop :=
  match parentNode n with
  | Some p =>
      match h !! p with
      | Some pn =>
          r ∈ childNodes pn /\ count_occ Nat.eq_dec (childNodes pn) r <= 1
      | None => False
      end
  | None => True
  end.

Definition tree_consistent (w : World) : Prop :=
  map_Forall (consistent_at (heap w)) (heap w).

#[global] Instance node_closed_dec h n : Decision (node_closed h n).
Proof. unfold node_closed. destruct (parentNode n); apply _. Defined.

#[global] Instance closed_dec w : Decision (closed w).
Proof. unfold closed. apply _. Defined.

#[global] Instance ranked_dec rk w : Decision (ranked rk w).
Proof. unfold ranked. apply _. Defined.

#[global] Instance consistent_at_dec h r n : Decision (consistent_at h r n).
Proof.
  unfold consistent_at. destruct (parentNode n) as [p|]; [|apply _].
  destruct (h !! p); apply _.
Defined.

#[global] Instance tree_consistent_dec w : Decision (tree_consistent w).
Proof. unfold tree_consistent. apply _. Defined.

(** The child array after the modelled [insertNode]. *)
Definition inserted (anchor : option nat) (el : nat) (cs : list nat)
  : list nat :=
  let index := match anchor with
               | Some a => indexOf a cs
               | None => (-1)%Z
               end in
  if (-1 <? index)%Z then spliceIn index el cs else cs ++ [el].

Definition link (parent el : nat) (anchor : option nat)
  (h : gmap nat DOMNode) : gmap nat DOMNode :=
  alter (set_parentNode (Some parent)) el
    (alter (fun pn => set_childNodes (inserted anchor el (childNodes pn)) pn)
           parent h).

Definition linked (parent el : nat) (anchor : option nat) (r : nat)
  (n : DOMNode) : DOMNode :=
  let n1 := if decide (parent = r)
            then set_childNodes (inserted anchor el (childNodes n)) n
            else n in
  if decide (el = r) then set_parentNode (Some parent) n1 else n1.

(** The node store after the excision of [el] from the array of [q]. *)
Definition unhook (el q : nat) (h : gmap nat DOMNode) : gmap nat DOMNode :=
  alter (fun qn => set_childNodes (removeFirst el (childNodes qn)) qn) q h.

(** The stores the reconciler can build from [w0] with [insert] and
    [remove]. *)
Inductive reach (w0 : World) : World -> Prop :=
  | reach_start : reach w0 w0
  | reach_insert w w' el parent anchor :
      reach w0 w ->
      NodeOps.insert el parent anchor w = Some (tt, w') -> reach w0 w'
  | reach_remove w w' fuel node :
      reach w0 w ->
      NodeOps.remove fuel node w = Some (tt, w') -> reach w0 w'.

(** The world a command returns, for stating examples. *)
Definition result (w : World) (o : option (unit * World)) : World :=
  match o with
  | Some (_, w') => w'
  | None => w
  end.

Definition element (name : string) (p : option nat) (cs : list nat)
  (y : option nat) : DOMNode :=
  mkNode name EmptyString p cs VUndefined VUndefined y.

Definition text (value : string) (p : option nat) : DOMNode :=
  set_parentNode p (TextNode value).

(** A root holding a box that holds two text nodes. *)
Definition sample : World :=
  mkWorld (<[0 := element "tui-root" None [1] (Some 100)]>
          (<[1 := element "tui-box" (Some 0) [2; 3] (Some 101)]>
          (<[2 := text "a" (Some 1)]>
          (<[3 := text "b" (Some 1)]> ∅)))) [].

(** The same nodes, not yet attached to each other. *)
Definition loose : World :=
  mkWorld (<[0 := element "tui-root" None [] (Some 100)]>
          (<[1 := element "tui-box" None [] (Some 101)]>
          (<[2 := text "a" None]> ∅))) [].

Definition sample_rank (r : nat) : nat :=
  match r with
  | 0 => 2
  | 1 => 1
  | _ => 0
  end.

End DomSpec.

(** ** Further predicates on stores and apps *)

Module DomShape.
Import JsArray Dom DomSpec.
Local Open Scope list_scope.

(** The child array of [pn], stored under [p], has no entry twice, and
    each entry names a node whose parent reference is [p]. *)
Definition backlinked_at (h : gmap nat DOMNode) (p : nat) (pn : DOMNode)
  : Prop :=
  Forall (fun c => count_occ Nat.eq_dec (childNodes pn) c <= 1 /\
                   parentNode <$> h !! c = Some (Some p))
         (childNodes pn).

Definition backlinked (w : World) : Prop :=
  map_Forall (backlinked_at (heap w)) (heap w).

#[global] Instance backlinked_at_dec h p pn : Decision (backlinked_at h p pn).
Proof. unfold backlinked_at. apply _. Defined.

#[global] Instance backlinked_dec w : Decision (backlinked w).
Proof. unfold backlinked. apply _. Defined.

(** The fields [removeNode] never writes. *)
Definition same_payload (n n' : DOMNode) : Prop :=
  nodeValue n' = nodeValue n /\ style n' = style n /\
  internal_transform n' = internal_transform n.

Definition payload_kept (w w' : World) : Prop :=
  forall r, option_Forall2 same_payload (heap w !! r) (heap w' !! r).

(** [y] is the yoga handle of a node of the store. *)
Definition owns (h : gmap nat DOMNode) (y : nat) : Prop :=
  exists r n, h !! r = Some n /\ yogaNode n = Some y.

(** [e] is a yoga call of lines 30 to 32 on handles of the store. *)
Definition releases (h : gmap nat DOMNode) (e : Effect) : Prop :=
  match e with
  | YogaRemoveChild py y => owns h py /\ owns h y
  | YogaUnsetMeasureFunc y => owns h y
  | YogaFreeRecursive y => owns h y
  | ApplyStyles _ _ => False
  | ConsoleError _ _ => False
  end.

(** The entries at odd indices, and those at even indices. *)
Fixpoint odds (l : list nat) : list nat :=
  match l with
  | _ :: b :: l' => b :: odds l'
  | _ => []
  end.

Definition evens (l : list nat) : list nat :=
  match l with
  | [] => []
  | a :: l' => a :: odds l'
  end.

(** [c] is a child of [node] with nothing below it: a text or comment
    node, or an element with an empty child array. *)
Definition leaf_of (h : gmap nat DOMNode) (node c : nat) : Prop :=
  match h !! c with
  | Some cn =>
      parentNode cn = Some node /\
      (isElementName (nodeName cn) = false \/ childNodes cn = [])
  | None => False
  end.

#[global] Instance leaf_of_dec h node c : Decision (leaf_of h node c).
Proof. unfold leaf_of. destruct (h !! c); apply _. Defined.

(** Parent references, child arrays, names and yoga handles agree. *)
Definition same_topology (w w' : World) : Prop :=
  forall r, option_Forall2
              (fun n n' => parentNode n' = parentNode n /\
                           childNodes n' = childNodes n /\
                           nodeName n' = nodeName n /\
                           yogaNode n' = yogaNode n)
              (heap w !! r) (heap w' !! r).

(** The tree shape of section 3, both ways: a parent reference names a
    node that holds the node once, and an entry of a child array names a
    node whose parent is the holder. *)
Definition well_formed (w : World) : Prop :=
  tree_consistent w /\ backlinked w.

#[global] Instance well_formed_dec w : Decision (well_formed w).
Proof. unfold well_formed. apply _. Defined.

(** The store, and the object at [r], after the modelled [insertNode]
    has taken [el] out of the array of the parent [q] it had, if any. *)
Definition unhook_from (el : nat) (q : option nat) (h : gmap nat DOMNode)
  : gmap nat DOMNode :=
  match q with
  | Some q' => unhook el q' h
  | None => h
  end.

Definition unhooked (el : nat) (q : option nat) (r : nat) (x : DOMNode)
  : DOMNode :=
  match q with
  | Some q' =>
      if decide (q' = r)
      then set_childNodes (removeFirst el (childNodes x)) x
      else x
  | None => x
  end.

(** The fields [patchProp] never writes. *)
Definition keeps_tree_fields (n n' : DOMNode) : Prop :=
  nodeName n' = nodeName n /\ nodeValue n' = nodeValue n /\
  parentNode n' = parentNode n /\ childNodes n' = childNodes n /\
  yogaNode n' = yogaNode n.

(** A box that is attached to nothing and holds two text nodes. *)
Definition orphan_box : World :=
  mkWorld (<[1 := element "tui-box" None [2; 3] (Some 101)]>
          (<[2 := text "a" (Some 1)]>
          (<[3 := text "b" (Some 1)]> ∅))) [].

(** A root, a box and two text nodes, not yet attached to each other. *)
Definition parts : World :=
  mkWorld (<[0 := element "tui-root" None [] (Some 100)]>
          (<[1 := element "tui-box" None [] (Some 101)]>
          (<[2 := text "a" None]>
          (<[3 := text "b" None]> ∅)))) [].

(** A box holding five text nodes. *)
Definition row : World :=
  mkWorld (<[0 := element "tui-box" None [1; 2; 3; 4; 5] (Some 100)]>
          (<[1 := text "a" (Some 0)]>
          (<[2 := text "b" (Some 0)]>
          (<[3 := text "c" (Some 0)]>
          (<[4 := text "d" (Some 0)]>
          (<[5 := text "e" (Some 0)]> ∅)))))) [].

End DomShape.

Module LifecycleShape.
Import Lifecycle.
Local Open Scope list_scope.

(** The settling functions are those of the memoized promise, which is
    the only promise there is; they are [noop] while there is none. *)
Definition bound (a : App) : Prop :=
  match exitPromise a with
  | None =>
      resolveExitPromise a = None /\ rejectExitPromise a = None /\
      promises a = []
  | Some p =>
      p = 0 /\ resolveExitPromise a = Some 0 /\
      rejectExitPromise a = Some 0 /\ length (promises a) = 1
  end.

Definition isWait (op : Op) : bool :=
  match op with
  | OpWaitUntilExit => true
  | _ => false
  end.

(** The events of one [unmount()]. *)
Definition unmountEvents : list Event :=
  [StdoutOffResize; RemoveOnExitListener; LogDone; BaseUnmount].

End LifecycleShape.

(** ** Facts about arrays *)

Module JsArrayFacts.
Import JsArray DomSpec.
Local Open Scope list_scope.

Lemma indexOf_lower x l : (-1 <= indexOf x l)%Z.
Proof.
  induction l as [|y l IH]; simpl; [lia|].
  destruct (Nat.eqb y x); [lia|].
  destruct (Z.ltb_spec (indexOf x l) (0)); lia.
Qed.

Lemma indexOf_absent x l : x ∉ l -> indexOf x l = (-1)%Z.
Proof.
  induction l as [|y l IH]; simpl; intros H; [reflexivity|].
  apply not_elem_of_cons in H as [Hne Hl].
  destruct (Nat.eqb_spec y x) as [->|_]; [contradiction|].
  rewrite IH by assumption. reflexivity.
Qed.

Lemma indexOf_first l1 x l2 :
  x ∉ l1 -> indexOf x (l1 ++ x :: l2) = Z.of_nat (length l1).
Proof.
  induction l1 as [|y l1 IH]; simpl; intros H.
  - rewrite Nat.eqb_refl. reflexivity.
  - apply not_elem_of_cons in H as [Hne Hl].
    destruct (Nat.eqb_spec y x) as [->|_]; [contradiction|].
    rewrite IH by assumption.
    destruct (Z.ltb_spec (Z.of_nat (length l1)) (0)); lia.
Qed.

Lemma elem_of_first_split (x : nat) (l : list nat) :
  x ∈ l -> exists l1 l2, l = l1 ++ x :: l2 /\ x ∉ l1.
Proof.
  induction l as [|y l IH]; intros H; [inversion H|].
  destruct (decide (y = x)) as [->|Hne].
  - exists [], l. split; [reflexivity|]. apply not_elem_of_nil.
  - apply elem_of_cons in H as [->|H]; [contradiction|].
    destruct (IH H) as (l1 & l2 & -> & Hl1).
    exists (y :: l1), l2. split; [reflexivity|].
    apply not_elem_of_cons. auto.
Qed.

Lemma indexOf_present x l : (-1 < indexOf x l)%Z -> x ∈ l.
Proof.
  intros H. destruct (decide (x ∈ l)) as [Hin|Hnin]; [assumption|].
  rewrite indexOf_absent in H by assumption. lia.
Qed.

Lemma splice1_first l1 x l2 :
  splice1 (Z.of_nat (length l1)) (l1 ++ x :: l2) = l1 ++ l2.
Proof.
  unfold splice1, relativeStart.
  destruct (Z.ltb_spec (Z.of_nat (length l1)) (0)); [lia|].
  rewrite length_app. simpl.
  replace (Z.to_nat (Z.min _ _)) with (length l1) by lia.
  apply delete_middle.
Qed.

Lemma removeFirst_first l1 x l2 :
  x ∉ l1 -> removeFirst x (l1 ++ x :: l2) = l1 ++ l2.
Proof.
  induction l1 as [|y l1 IH]; simpl; intros H.
  - rewrite Nat.eqb_refl. reflexivity.
  - apply not_elem_of_cons in H as [Hne Hl].
    destruct (Nat.eqb_spec y x) as [->|_]; [contradiction|].
    rewrite IH by assumption. reflexivity.
Qed.

Lemma removeFirst_absent x l : x ∉ l -> removeFirst x l = l.
Proof.
  induction l as [|y l IH]; simpl; intros H; [reflexivity|].
  apply not_elem_of_cons in H as [Hne Hl].
  destruct (Nat.eqb_spec y x) as [->|_]; [contradiction|].
  rewrite IH by assumption. reflexivity.
Qed.

(** What lines 23 to 27 leave in the parent's array. *)
Lemma splice1_indexOf x l :
  (if (-1 <? indexOf x l)%Z then splice1 (indexOf x l) l else l)
  = removeFirst x l.
Proof.
  destruct (decide (x ∈ l)) as [Hin|Hnin].
  - destruct (elem_of_first_split x l Hin) as (l1 & l2 & -> & Hl1).
    rewrite indexOf_first by assumption.
    destruct (Z.ltb_spec (-1) (Z.of_nat (length l1))); [|lia].
    rewrite splice1_first, removeFirst_first by assumption. reflexivity.
  - rewrite indexOf_absent, removeFirst_absent by assumption. reflexivity.
Qed.

Lemma removeFirst_sublist x l : removeFirst x l `sublist_of` l.
Proof.
  induction l as [|y l IH]; simpl; [constructor|].
  destruct (Nat.eqb y x).
  - apply sublist_cons. reflexivity.
  - apply sublist_skip. assumption.
Qed.

Lemma removeFirst_elem_of x y l : y <> x -> y ∈ l -> y ∈ removeFirst x l.
Proof.
  intros Hne. induction l as [|z l IH]; simpl; intros H; [inversion H|].
  destruct (Nat.eqb_spec z x) as [->|Hzx].
  - apply elem_of_cons in H as [->|H]; [contradiction|assumption].
  - apply elem_of_cons in H as [->|H]; [left|right; auto].
Qed.

Lemma removeFirst_count_ne x y l :
  y <> x ->
  count_occ Nat.eq_dec (removeFirst x l) y = count_occ Nat.eq_dec l y.
Proof.
  intros Hne. induction l as [|z l IH]; simpl; [reflexivity|].
  destruct (Nat.eqb_spec z x) as [->|Hzx].
  - destruct (Nat.eq_dec x y); [congruence|reflexivity].
  - simpl. rewrite IH. reflexivity.
Qed.

Lemma at_index_after l1 x l2 :
  at_index (l1 ++ x :: l2) (Z.of_nat (length l1) + 1) = head l2.
Proof.
  unfold at_index.
  destruct (Z.ltb_spec (Z.of_nat (length l1) + 1) (0)); [lia|].
  replace (Z.to_nat (Z.of_nat (length l1) + 1)) with (length l1 + 1) by lia.
  rewrite lookup_app_r by lia.
  replace (length l1 + 1 - length l1) with 1 by lia.
  simpl. destruct l2; reflexivity.
Qed.

Lemma spliceIn_first l1 a l2 x :
  spliceIn (Z.of_nat (length l1)) x (l1 ++ a :: l2) = l1 ++ x :: a :: l2.
Proof.
  unfold spliceIn, relativeStart.
  destruct (Z.ltb_spec (Z.of_nat (length l1)) (0)); [lia|].
  rewrite length_app. simpl.
  replace (Z.to_nat (Z.min _ _)) with (length l1) by lia.
  rewrite take_app_length, drop_app_length. reflexivity.
Qed.

End JsArrayFacts.

(** ** Facts about the node store *)

Module DomFacts.
Import JsArray Dom DomSpec DomShape JsArrayFacts.
Local Open Scope list_scope.

Ltac unfold_M :=
  unfold bind, ret, getNode, emit, when in *.

Lemma modifyNode_alter r f w n :
  heap w !! r = Some n ->
  modifyNode r f w = Some (tt, mkWorld (alter f r (heap w)) (effects w)).
Proof.
  intros H. unfold modifyNode. rewrite H. do 3 f_equal.
  apply map_eq. intros k. rewrite lookup_insert, lookup_alter.
  case_decide; [rewrite H|]; reflexivity.
Qed.

Lemma set_childNodes_same n : set_childNodes (childNodes n) n = n.
Proof. destruct n; reflexivity. Qed.

Lemma unlink_lookup node p h r :
  unlink node p h !! r = unlinked node p r <$> h !! r.
Proof.
  unfold unlink, unlinked. rewrite !lookup_alter.
  repeat case_decide; subst; destruct (h !! r); simpl; try reflexivity;
    congruence.
Qed.

Lemma detach_orphan w node n :
  heap w !! node = Some n -> parentNode n = None ->
  detach node w = Some (tt, w).
Proof. intros Hn Hp. unfold detach. unfold_M. rewrite Hn, Hp. reflexivity. Qed.

Lemma detach_spec w node n p pn :
  heap w !! node = Some n -> parentNode n = Some p -> heap w !! p = Some pn ->
  detach node w =
  Some (tt, mkWorld (unlink node p (heap w)) (effects w ++ yogaRelease n pn)).
Proof.
  intros Hn Hp Hpn. unfold detach. unfold_M. rewrite Hn, Hp. cbn beta iota.
  rewrite Hpn. cbn beta iota.
  set (g := fun pn' : DOMNode =>
              set_childNodes (removeFirst node (childNodes pn')) pn').
  assert (Hstep1 :
    (if (-1 <? indexOf node (childNodes pn))%Z
     then modifyNode p
            (fun pn' => set_childNodes
                          (splice1 (indexOf node (childNodes pn)) (childNodes pn'))
                          pn')
     else ret tt) w
    = Some (tt, mkWorld (alter g p (heap w)) (effects w))).
  { pose proof (splice1_indexOf node (childNodes pn)) as Hs.
    destruct (-1 <? indexOf node (childNodes pn))%Z.
    - rewrite (modifyNode_alter _ _ _ _ Hpn). do 3 f_equal.
      apply alter_ext. intros x Hx. rewrite Hpn in Hx. injection Hx as <-.
      unfold g. rewrite Hs. reflexivity.
    - unfold ret. do 2 f_equal. destruct w as [h e]. simpl in *. f_equal.
      symmetry. apply alter_id. intros x Hx. rewrite Hpn in Hx.
      injection Hx as <-. unfold g. rewrite <- Hs. apply set_childNodes_same. }
  rewrite Hstep1.
  assert (Hnode : exists n1, alter g p (heap w) !! node = Some n1).
  { rewrite lookup_alter. case_decide; subst.
    - rewrite Hn. eexists. reflexivity.
    - eexists. eassumption. }
  destruct Hnode as [n1 Hn1].
  unfold yogaRelease.
  destruct (yogaNode n) as [y|]; [destruct (yogaNode pn) as [py|]|]; simpl;
    erewrite modifyNode_alter by (simpl; exact Hn1); simpl;
    unfold unlink; fold g; rewrite <- ?app_assoc, ?app_nil_r; reflexivity.
Qed.

Lemma node_shrink_refl n : node_shrink n n.
Proof. repeat split; auto. Qed.

Lemma node_shrink_trans n1 n2 n3 :
  node_shrink n1 n2 -> node_shrink n2 n3 -> node_shrink n1 n3.
Proof.
  intros (Ha & Hb & Hc & Hd) (Ha' & Hb' & Hc' & Hd'). repeat split.
  - congruence.
  - destruct Hb' as [Hb'|Hb']; [rewrite Hb'; exact Hb|right; exact Hb'].
  - etransitivity; eassumption.
  - congruence.
Qed.

Lemma shrink_refl w : shrink w w.
Proof.
  intros r. destruct (heap w !! r); constructor. apply node_shrink_refl.
Qed.

Lemma shrink_trans w1 w2 w3 : shrink w1 w2 -> shrink w2 w3 -> shrink w1 w3.
Proof.
  intros H12 H23 r. specialize (H12 r). specialize (H23 r).
  destruct H12 as [n1 n2 Hn|]; inversion H23; subst; constructor.
  eapply node_shrink_trans; eassumption.
Qed.

Lemma shrink_lookup w w' r n :
  shrink w w' -> heap w !! r = Some n ->
  exists n', heap w' !! r = Some n' /\ node_shrink n n'.
Proof.
  intros H Hr. specialize (H r). rewrite Hr in H. inversion H; subst.
  eexists. split; [reflexivity|assumption].
Qed.

Lemma shrink_lookup_inv w w' r n' :
  shrink w w' -> heap w' !! r = Some n' ->
  exists n, heap w !! r = Some n /\ node_shrink n n'.
Proof.
  intros H Hr. specialize (H r). rewrite Hr in H. inversion H; subst.
  eexists. split; [reflexivity|assumption].
Qed.

Lemma unlink_shrink node p w e :
  shrink w (mkWorld (unlink node p (heap w)) e).
Proof.
  intros r. simpl. rewrite unlink_lookup.
  destruct (heap w !! r) as [n|]; simpl; constructor.
  unfold unlinked.
  repeat case_decide; repeat split; simpl; auto using removeFirst_sublist.
Qed.

Lemma detach_shrink node w w' :
  detach node w = Some (tt, w') -> shrink w w'.
Proof.
  intros H. destruct (heap w !! node) as [n|] eqn:Hn.
  - destruct (parentNode n) as [p|] eqn:Hp.
    + destruct (heap w !! p) as [pn|] eqn:Hpn.
      * rewrite (detach_spec _ _ _ _ _ Hn Hp Hpn) in H.
        injection H as <-. apply unlink_shrink.
      * unfold detach in H. unfold_M. rewrite Hn, Hp, Hpn in H. discriminate.
    + rewrite (detach_orphan _ _ _ Hn Hp) in H. injection H as <-.
      apply shrink_refl.
  - unfold detach in H. unfold_M. rewrite Hn in H. discriminate.
Qed.

(** *** Well-formed stores *)

Lemma shrink_closed w w' : closed w -> shrink w w' -> closed w'.
Proof.
  intros Hc Hs r n' Hr.
  destruct (shrink_lookup_inv _ _ _ _ Hs Hr) as (n & Hn & Hname & Hpar & Hch & _).
  destruct (Hc r n Hn) as [Hcp Hcc]. split.
  - destruct (parentNode n') as [p|] eqn:Hp'; [|exact I].
    destruct Hpar as [Hpar|Hpar]; [|discriminate].
    rewrite <- Hpar in Hcp. destruct Hcp as [pn Hpn].
    destruct (shrink_lookup _ _ _ _ Hs Hpn) as (pn' & Hpn' & _). eauto.
  - apply Forall_forall. intros c Hc'.
    rewrite Forall_forall in Hcc.
    destruct (Hcc c (elem_of_sublist _ _ _ Hc' Hch)) as [cn Hcn].
    destruct (shrink_lookup _ _ _ _ Hs Hcn) as (cn' & Hcn' & _). eauto.
Qed.

Lemma shrink_ranked rk w w' : ranked rk w -> shrink w w' -> ranked rk w'.
Proof.
  intros Hr Hs r n' Hn'.
  destruct (shrink_lookup_inv _ _ _ _ Hs Hn') as (n & Hn & _ & _ & Hch & _).
  specialize (Hr r n Hn). simpl in Hr. rewrite Forall_forall in Hr.
  apply Forall_forall. intros c Hc. apply Hr.
  eapply elem_of_sublist; eassumption.
Qed.

(** *** The loop and the recursion *)

Lemma forIndices_preserves (P : World -> Prop) body ks :
  (forall k w w', P w -> body k w = Some (tt, w') -> P w') ->
  forall w w', P w -> forIndices body ks w = Some (tt, w') -> P w'.
Proof.
  intros Hbody. induction ks as [|k ks IH]; intros w w' HP H; simpl in H.
  - unfold ret in H. injection H as <-. exact HP.
  - unfold bind in H. destruct (body k w) as [[[] w1]|] eqn:Hk; [|discriminate].
    eapply IH; [|exact H]. eapply Hbody; eassumption.
Qed.

Lemma forIndices_total (P : World -> Prop) body ks :
  (forall k w, P w -> exists w', body k w = Some (tt, w') /\ P w') ->
  forall w, P w -> exists w', forIndices body ks w = Some (tt, w') /\ P w'.
Proof.
  intros Hbody. induction ks as [|k ks IH]; intros w HP; simpl.
  - exists w. split; [reflexivity|exact HP].
  - destruct (Hbody k w HP) as (w1 & Hk & HP1).
    destruct (IH w1 HP1) as (w2 & Hks & HP2).
    exists w2. split; [|exact HP2]. unfold bind. rewrite Hk. exact Hks.
Qed.

Lemma mapChildNodes_unfold f owner w o :
  heap w !! owner = Some o ->
  mapChildNodes f owner w
  = forIndices (visit f owner) (seq 0 (length (childNodes o))) w.
Proof.
  intros H. unfold mapChildNodes, bind at 1, getNode at 1. rewrite H.
  reflexivity.
Qed.

Lemma removeNode_unfold fuel node w n :
  heap w !! node = Some n ->
  removeNode (S fuel) node w =
  match when (isElementName (nodeName n))
             (mapChildNodes (removeNode fuel) node) w with
  | Some (_, w1) => detach node w1
  | None => None
  end.
Proof.
  intros H. simpl. unfold bind at 1, getNode at 1. rewrite H. reflexivity.
Qed.

(** Whatever [detach] preserves, [removeNode] preserves. *)
Lemma removeNode_preserves (P : World -> Prop) :
  (forall node w w', P w -> detach node w = Some (tt, w') -> P w') ->
  forall fuel node w w',
    P w -> removeNode fuel node w = Some (tt, w') -> P w'.
Proof.
  intros Hd. induction fuel as [|fuel IH]; intros node w w' HP H;
    [discriminate|].
  destruct (heap w !! node) as [n|] eqn:Hn.
  2:{ simpl in H. unfold bind at 1, getNode at 1 in H. rewrite Hn in H.
      discriminate. }
  rewrite (removeNode_unfold _ _ _ _ Hn) in H.
  destruct (when _ _ w) as [[[] w1]|] eqn:Hmap; [|discriminate].
  apply (Hd node w1 w'); [|exact H].
  unfold when in Hmap. destruct (isElementName (nodeName n)).
  - rewrite (mapChildNodes_unfold _ _ _ _ Hn) in Hmap.
    eapply forIndices_preserves; [|exact HP|exact Hmap].
    intros k w2 w3 HP2 Hk. unfold visit, bind, getNode in Hk.
    destruct (heap w2 !! node) as [o'|]; [|discriminate].
    destruct (childNodes o' !! k) as [c|].
    + eapply IH; eassumption.
    + unfold ret in Hk. injection Hk as <-. exact HP2.
  - unfold ret in Hmap. injection Hmap as <-. exact HP.
Qed.

Lemma removeNode_shrink fuel node w w' :
  removeNode fuel node w = Some (tt, w') -> shrink w w'.
Proof.
  apply (removeNode_preserves (shrink w)); [|apply shrink_refl].
  intros r w1 w2 H1 H2. eapply shrink_trans; [exact H1|].
  eapply detach_shrink; eassumption.
Qed.

Lemma detach_total w node :
  closed w -> is_Some (heap w !! node) ->
  exists w', detach node w = Some (tt, w').
Proof.
  intros Hc [n Hn]. destruct (parentNode n) as [p|] eqn:Hp.
  - destruct (Hc node n Hn) as [Hcp _]. rewrite Hp in Hcp.
    destruct Hcp as [pn Hpn].
    rewrite (detach_spec _ _ _ _ _ Hn Hp Hpn). eauto.
  - rewrite (detach_orphan _ _ _ Hn Hp). eauto.
Qed.

(** On a closed store without cycles [removeNode] returns, given fuel
    beyond the rank of the node. *)
Lemma removeNode_total rk : forall fuel node w,
  closed w -> ranked rk w -> is_Some (heap w !! node) -> rk node < fuel ->
  exists w', removeNode fuel node w = Some (tt, w').
Proof.
  induction fuel as [|fuel IH]; intros node w Hc Hr [n Hn] Hlt; [lia|].
  rewrite (removeNode_unfold _ _ _ _ Hn).
  assert (Hmap : exists w1,
            when (isElementName (nodeName n))
                 (mapChildNodes (removeNode fuel) node) w = Some (tt, w1)
            /\ shrink w w1).
  { unfold when. destruct (isElementName (nodeName n)).
    - rewrite (mapChildNodes_unfold _ _ _ _ Hn).
      apply (forIndices_total (shrink w)); [|apply shrink_refl].
      intros k w1 Hs. unfold visit, bind, getNode.
      destruct (shrink_lookup _ _ _ _ Hs Hn) as (o' & Ho' & _).
      rewrite Ho'. destruct (childNodes o' !! k) as [c|] eqn:Hk.
      + pose proof (shrink_closed _ _ Hc Hs) as Hc1.
        pose proof (shrink_ranked _ _ _ Hr Hs) as Hr1.
        assert (Hin : c ∈ childNodes o')
          by (apply list_elem_of_lookup; eauto).
        destruct (Hc1 node o' Ho') as [_ Hcc].
        rewrite Forall_forall in Hcc.
        pose proof (Hr1 node o' Ho') as Hrk. simpl in Hrk.
        rewrite Forall_forall in Hrk.
        destruct (IH c w1 Hc1 Hr1 (Hcc c Hin)) as [w2 Hw2].
        { specialize (Hrk c Hin). lia. }
        exists w2. split; [exact Hw2|].
        eapply shrink_trans; [exact Hs|].
        eapply removeNode_shrink; eassumption.
      + exists w1. split; [reflexivity|exact Hs].
    - exists w. split; [reflexivity|apply shrink_refl]. }
  destruct Hmap as (w1 & -> & Hs).
  apply detach_total.
  - eapply shrink_closed; eassumption.
  - destruct (shrink_lookup _ _ _ _ Hs Hn) as (n' & Hn' & _). eauto.
Qed.

(** More fuel changes no result. *)
Lemma forIndices_mono body1 body2 ks :
  (forall k w r, body1 k w = Some r -> body2 k w = Some r) ->
  forall w r, forIndices body1 ks w = Some r -> forIndices body2 ks w = Some r.
Proof.
  intros Hb. induction ks as [|k ks IH]; intros w r H; simpl in *; [exact H|].
  unfold bind in *. destruct (body1 k w) as [[u w1]|] eqn:Hk; [|discriminate].
  rewrite (Hb _ _ _ Hk). apply IH. exact H.
Qed.

Lemma removeNode_fuel_S : forall fuel node w r,
  removeNode fuel node w = Some r -> removeNode (S fuel) node w = Some r.
Proof.
  induction fuel as [|fuel IH]; intros node w r H; [discriminate|].
  destruct (heap w !! node) as [n|] eqn:Hn.
  2:{ simpl in H. unfold bind at 1, getNode at 1 in H. rewrite Hn in H.
      discriminate. }
  rewrite (removeNode_unfold _ _ _ _ Hn) in H.
  rewrite (removeNode_unfold _ _ _ _ Hn).
  destruct (when _ (mapChildNodes (removeNode fuel) node) w)
    as [[[] w1]|] eqn:Hmap; [|discriminate].
  assert (Hmap' : when (isElementName (nodeName n))
                       (mapChildNodes (removeNode (S fuel)) node) w
                  = Some (tt, w1)).
  { unfold when in *. destruct (isElementName (nodeName n)); [|exact Hmap].
    rewrite (mapChildNodes_unfold _ _ _ _ Hn) in Hmap.
    rewrite (mapChildNodes_unfold _ _ _ _ Hn).
    eapply forIndices_mono; [|exact Hmap].
    intros k w2 r2. unfold visit, bind, getNode.
    destruct (heap w2 !! node) as [o'|]; [|discriminate].
    destruct (childNodes o' !! k) as [c|]; [apply IH|trivial]. }
  rewrite Hmap'. exact H.
Qed.

Lemma removeNode_fuel_le fuel fuel' node w r :
  fuel <= fuel' ->
  removeNode fuel node w = Some r -> removeNode fuel' node w = Some r.
Proof.
  intros Hle H. induction Hle as [|m _ IH]; [exact H|].
  apply removeNode_fuel_S. exact IH.
Qed.

Lemma cleanup_preserves (P : World -> Prop) :
  (forall node w w', P w -> detach node w = Some (tt, w') -> P w') ->
  forall fuel b node w w',
    P w ->
    when b (mapChildNodes (removeNode fuel) node) w = Some (tt, w') -> P w'.
Proof.
  intros Hd fuel b node w w' HP H. unfold when in H. destruct b.
  - unfold mapChildNodes, bind at 1, getNode at 1 in H.
    destruct (heap w !! node) as [o|]; [|discriminate].
    eapply forIndices_preserves; [|exact HP|exact H].
    intros k w2 w3 HP2 Hk. unfold visit, bind, getNode in Hk.
    destruct (heap w2 !! node) as [o'|]; [|discriminate].
    destruct (childNodes o' !! k) as [c|].
    + eapply removeNode_preserves; eassumption.
    + unfold ret in Hk. injection Hk as <-. exact HP2.
  - unfold ret in H. injection H as <-. exact HP.
Qed.

(** *** Tree consistency *)

Lemma unlinked_parent node p r n :
  parentNode (unlinked node p r n)
  = if decide (node = r) then None else parentNode n.
Proof. unfold unlinked. repeat case_decide; destruct n; reflexivity. Qed.

Lemma unlinked_children node p r n :
  childNodes (unlinked node p r n)
  = if decide (p = r) then removeFirst node (childNodes n) else childNodes n.
Proof. unfold unlinked. repeat case_decide; destruct n; reflexivity. Qed.

Lemma detach_consistent node w w' :
  tree_consistent w -> detach node w = Some (tt, w') -> tree_consistent w'.
Proof.
  intros Ht H.
  destruct (heap w !! node) as [n|] eqn:Hn.
  2:{ unfold detach in H. unfold_M. rewrite Hn in H. discriminate. }
  destruct (parentNode n) as [p|] eqn:Hp.
  2:{ rewrite (detach_orphan _ _ _ Hn Hp) in H. injection H as <-. exact Ht. }
  destruct (heap w !! p) as [pn|] eqn:Hpn.
  2:{ unfold detach in H. unfold_M. rewrite Hn, Hp, Hpn in H. discriminate. }
  rewrite (detach_spec _ _ _ _ _ Hn Hp Hpn) in H. injection H as <-.
  intros r n' Hr. simpl in Hr |- *. rewrite unlink_lookup in Hr.
  destruct (heap w !! r) as [n0|] eqn:Hr0; [|discriminate].
  simpl in Hr. injection Hr as <-.
  unfold consistent_at. rewrite unlinked_parent.
  case_decide as Hnr; [exact I|].
  specialize (Ht r n0 Hr0). unfold consistent_at in Ht.
  destruct (parentNode n0) as [q|]; [|exact I].
  rewrite unlink_lookup.
  destruct (heap w !! q) as [qn|]; [|contradiction]. simpl.
  rewrite unlinked_children. destruct Ht as [Hin Hcnt].
  case_decide; [|split; assumption]. split.
  - apply removeFirst_elem_of; [congruence|assumption].
  - rewrite removeFirst_count_ne by congruence. assumption.
Qed.

Lemma removeNode_consistent fuel node w w' :
  tree_consistent w -> removeNode fuel node w = Some (tt, w') ->
  tree_consistent w'.
Proof.
  apply (removeNode_preserves tree_consistent).
  intros r w1 w2. apply detach_consistent.
Qed.

Lemma link_lookup parent el anchor h r :
  link parent el anchor h !! r = linked parent el anchor r <$> h !! r.
Proof.
  unfold link, linked. rewrite !lookup_alter.
  repeat case_decide; subst; destruct (h !! r); simpl; try reflexivity;
    congruence.
Qed.

Lemma linked_parent parent el anchor r n :
  parentNode (linked parent el anchor r n)
  = if decide (el = r) then Some parent else parentNode n.
Proof. unfold linked. repeat case_decide; destruct n; reflexivity. Qed.

Lemma linked_children parent el anchor r n :
  childNodes (linked parent el anchor r n)
  = if decide (parent = r) then inserted anchor el (childNodes n)
    else childNodes n.
Proof. unfold linked. repeat case_decide; destruct n; reflexivity. Qed.

(** Lines 23 to 27 on the array of [q]. *)
Lemma excise_alter w q qn el :
  heap w !! q = Some qn ->
  when (-1 <? indexOf el (childNodes qn))%Z
       (modifyNode q
          (fun qn' => set_childNodes
                        (splice1 (indexOf el (childNodes qn)) (childNodes qn'))
                        qn')) w
  = Some (tt, mkWorld (unhook el q (heap w)) (effects w)).
Proof.
  intros Hqn. unfold unhook.
  pose proof (splice1_indexOf el (childNodes qn)) as Hs.
  unfold when. destruct (-1 <? indexOf el (childNodes qn))%Z.
  - rewrite (modifyNode_alter _ _ _ _ Hqn). do 3 f_equal.
    apply alter_ext. intros x Hx. rewrite Hqn in Hx. injection Hx as <-.
    rewrite Hs. reflexivity.
  - unfold ret. do 2 f_equal. destruct w as [h e]. simpl in *. f_equal.
    symmetry. apply alter_id. intros x Hx. rewrite Hqn in Hx.
    injection Hx as <-. rewrite <- Hs. apply set_childNodes_same.
Qed.

(** The second half of the modelled [insertNode]. *)
Lemma attach_spec w parent el anchor :
  is_Some (heap w !! el) -> is_Some (heap w !! parent) ->
  (let* pn := getNode parent in
   modifyNode parent
     (fun pn' => set_childNodes
                   (if (-1 <? match anchor with
                              | Some a => indexOf a (childNodes pn)
                              | None => (-1)%Z
                              end)%Z
                    then spliceIn match anchor with
                                  | Some a => indexOf a (childNodes pn)
                                  | None => (-1)%Z
                                  end el (childNodes pn')
                    else childNodes pn' ++ [el]) pn') ;;
   modifyNode el (set_parentNode (Some parent))) w
  = Some (tt, mkWorld (link parent el anchor (heap w)) (effects w)).
Proof.
  intros [n Hn] [pn Hpn]. unfold_M. rewrite Hpn. cbn beta iota.
  rewrite (modifyNode_alter _ _ _ _ Hpn).
  set (g := fun pn' : DOMNode =>
              set_childNodes (inserted anchor el (childNodes pn')) pn').
  assert (Hg : alter
            (fun pn' => set_childNodes
               (if (-1 <? match anchor with
                          | Some a => indexOf a (childNodes pn)
                          | None => (-1)%Z
                          end)%Z
                then spliceIn match anchor with
                              | Some a => indexOf a (childNodes pn)
                              | None => (-1)%Z
                              end el (childNodes pn')
                else childNodes pn' ++ [el]) pn') parent (heap w)
          = alter g parent (heap w)).
  { apply alter_ext. intros x Hx. rewrite Hpn in Hx. injection Hx as <-.
    reflexivity. }
  rewrite Hg.
  assert (Hnode : exists n1, alter g parent (heap w) !! el = Some n1).
  { rewrite lookup_alter. case_decide; subst.
    - rewrite Hpn. eexists. reflexivity.
    - eexists. eassumption. }
  destruct Hnode as [n1 Hn1].
  erewrite modifyNode_alter by (simpl; exact Hn1). reflexivity.
Qed.

Lemma unhook_is_Some el q h r : is_Some (unhook el q h !! r) <-> is_Some (h !! r).
Proof.
  unfold unhook. rewrite lookup_alter. case_decide; subst; [|reflexivity].
  rewrite <- !not_eq_None_Some, fmap_None. reflexivity.
Qed.

(** The store the modelled [insertNode] returns: the node is taken out
    of the array of the parent it has, if any, and linked to the new one. *)
Lemma insertNode_spec w parent el anchor n :
  heap w !! el = Some n -> is_Some (heap w !! parent) ->
  match parentNode n with
  | Some q => is_Some (heap w !! q)
  | None => True
  end ->
  insertNode parent el anchor w
  = Some (tt, mkWorld (link parent el anchor
                         match parentNode n with
                         | Some q => unhook el q (heap w)
                         | None => heap w
                         end) (effects w)).
Proof.
  intros Hn Hparent Hq. unfold insertNode.
  unfold bind at 1, getNode at 1. rewrite Hn. unfold bind at 1.
  destruct (parentNode n) as [q|].
  - destruct Hq as [qn Hqn]. unfold bind at 1, getNode at 1. rewrite Hqn.
    rewrite (excise_alter _ _ _ _ Hqn).
    rewrite attach_spec; cbn [heap effects]; [reflexivity| |].
    + apply unhook_is_Some. eauto.
    + apply unhook_is_Some. exact Hparent.
  - unfold ret at 1. rewrite attach_spec by eauto. reflexivity.
Qed.

Lemma inserted_split anchor el cs :
  exists l1 l2, cs = l1 ++ l2 /\ inserted anchor el cs = l1 ++ el :: l2.
Proof.
  unfold inserted. destruct anchor as [a|].
  - destruct (Z.ltb_spec (-1) (indexOf a cs)) as [Hlt|Hge].
    + destruct (elem_of_first_split a cs (indexOf_present _ _ Hlt))
        as (l1 & l2 & -> & Hl1).
      exists l1, (a :: l2). split; [reflexivity|].
      rewrite indexOf_first by assumption. apply spliceIn_first.
    + exists cs, []. split; [symmetry; apply app_nil_r|reflexivity].
  - exists cs, []. split; [symmetry; apply app_nil_r|reflexivity].
Qed.

Lemma inserted_elem_of anchor el cs y :
  y ∈ inserted anchor el cs <-> y = el \/ y ∈ cs.
Proof.
  destruct (inserted_split anchor el cs) as (l1 & l2 & -> & ->).
  rewrite !elem_of_app, elem_of_cons. tauto.
Qed.

Lemma inserted_count anchor el cs y :
  count_occ Nat.eq_dec (inserted anchor el cs) y
  = (if decide (el = y) then 1 else 0) + count_occ Nat.eq_dec cs y.
Proof.
  destruct (inserted_split anchor el cs) as (l1 & l2 & -> & ->).
  rewrite !count_occ_app. simpl.
  destruct (Nat.eq_dec el y); case_decide; try congruence; lia.
Qed.

(** *** [removeNode] *)

(** C2 at a box with two text children: [removeNode], with whatever
    fuel lets it return, removes the first child and never visits the
    second, which stays in the array of the box and keeps the box as its
    parent; the box itself is detached from the root and its yoga node
    is released. *)
Theorem removeNode_skips_sibling :
  exists w',
    (forall fuel, NodeOps.remove (2 + fuel) 1 sample = Some (tt, w')) /\
    childNodes <$> heap w' !! 1 = Some [3] /\
    Dom.parentNode <$> heap w' !! 3 = Some (Some 1) /\
    Dom.parentNode <$> heap w' !! 2 = Some None /\
    Dom.parentNode <$> heap w' !! 1 = Some None /\
    childNodes <$> heap w' !! 0 = Some [] /\
    effects w' = [YogaRemoveChild 100 101; YogaUnsetMeasureFunc 101;
                  YogaFreeRecursive 101].
Proof.
  exists (result sample (NodeOps.remove 2 1 sample)). split.
  - intros fuel. apply (removeNode_fuel_le 2); [lia|].
    vm_compute. reflexivity.
  - vm_compute. repeat split.
Qed.

(** A node that [removeNode] has returned from has no parent: an
    already-removed node is a detached one. *)
Lemma removeNode_detaches fuel node w w' :
  removeNode fuel node w = Some (tt, w') ->
  Dom.parentNode <$> heap w' !! node = Some None.
Proof.
  intros H. destruct fuel as [|fuel]; [discriminate|].
  destruct (heap w !! node) as [n|] eqn:Hn.
  2:{ simpl in H. unfold bind at 1, getNode at 1 in H. rewrite Hn in H.
      discriminate. }
  rewrite (removeNode_unfold _ _ _ _ Hn) in H.
  destruct (when _ _ w) as [[[] w1]|]; [|discriminate].
  destruct (heap w1 !! node) as [n1|] eqn:Hn1.
  2:{ unfold detach in H. unfold_M. rewrite Hn1 in H. discriminate. }
  destruct (Dom.parentNode n1) as [p|] eqn:Hp.
  - destruct (heap w1 !! p) as [pn|] eqn:Hpn.
    2:{ unfold detach in H. unfold_M. rewrite Hn1, Hp, Hpn in H.
        discriminate. }
    rewrite (detach_spec _ _ _ _ _ Hn1 Hp Hpn) in H. injection H as <-.
    cbn [heap]. rewrite unlink_lookup, Hn1. simpl.
    rewrite unlinked_parent, decide_True by reflexivity. reflexivity.
  - rewrite (detach_orphan _ _ _ Hn1 Hp) in H. injection H as <-.
    rewrite Hn1. simpl. rewrite Hp. reflexivity.
Qed.

(** What holds of [remove] on a detached node: on a closed store without
    cycles it returns; what it returns is the store the recursion over
    the children leaves, nothing more; the store is untouched if the node
    is a text or comment node or has no child; the node still has no
    parent; and a tree-consistent store stays so. *)
Lemma remove_detached (rk : nat -> nat) (fuel node : nat) (w : World)
  (n : DOMNode) :
  closed w -> ranked rk w -> rk node < fuel ->
  heap w !! node = Some n -> Dom.parentNode n = None ->
  exists w',
    NodeOps.remove fuel node w = Some (tt, w') /\
    when (isElementName (nodeName n))
         (mapChildNodes (removeNode (pred fuel)) node) w = Some (tt, w') /\
    (isElementName (nodeName n) = false \/ childNodes n = [] -> w' = w) /\
    Dom.parentNode <$> heap w' !! node = Some None /\
    (tree_consistent w -> tree_consistent w').
Proof.
  intros Hc Hr Hlt Hn Hp.
  destruct fuel as [|fuel]; [lia|]. simpl pred.
  destruct (removeNode_total rk (S fuel) node w Hc Hr) as [w' Hw'];
    [eauto|exact Hlt|].
  exists w'. unfold NodeOps.remove. split; [exact Hw'|].
  pose proof Hw' as Hrun.
  rewrite (removeNode_unfold _ _ _ _ Hn) in Hrun.
  destruct (when _ _ w) as [[[] w1]|] eqn:Hmap; [|discriminate].
  assert (Hs : shrink w w1).
  { apply (cleanup_preserves (shrink w)) in Hmap; [exact Hmap| |apply shrink_refl].
    intros r wa wb Ha Hb. eapply shrink_trans; [exact Ha|].
    eapply detach_shrink; eassumption. }
  destruct (shrink_lookup _ _ _ _ Hs Hn) as (n1 & Hn1 & _ & Hpar & _).
  assert (Hp1 : Dom.parentNode n1 = None).
  { destruct Hpar as [Hpar|Hpar]; [rewrite Hpar; exact Hp|exact Hpar]. }
  rewrite (detach_orphan _ _ _ Hn1 Hp1) in Hrun. injection Hrun as <-.
  split; [reflexivity|]. split; [|split].
  - intros Hleaf. unfold when in Hmap.
    destruct (isElementName (nodeName n)).
    + destruct Hleaf as [Hleaf|Hleaf]; [discriminate|].
      rewrite (mapChildNodes_unfold _ _ _ _ Hn), Hleaf in Hmap.
      simpl in Hmap. unfold ret in Hmap. injection Hmap as <-. reflexivity.
    + unfold ret in Hmap. injection Hmap as <-. reflexivity.
  - rewrite Hn1. simpl. rewrite Hp1. reflexivity.
  - intros Ht. eapply removeNode_consistent; eassumption.
Qed.

Lemma remove_detached_example :
  let w := result sample (NodeOps.remove 2 1 sample) in
  let n := element "tui-box" None [3] (Some 101) in
  exists w',
    NodeOps.remove 2 1 w = Some (tt, w') /\
    when (isElementName (nodeName n))
         (mapChildNodes (removeNode (pred 2)) 1) w = Some (tt, w') /\
    (isElementName (nodeName n) = false \/ childNodes n = [] -> w' = w) /\
    Dom.parentNode <$> heap w' !! 1 = Some None /\
    (tree_consistent w -> tree_consistent w').
Proof.
  intros w n. apply (remove_detached sample_rank 2 1 w n).
  - apply (bool_decide_unpack _). vm_compute. exact I.
  - apply (bool_decide_unpack _). vm_compute. exact I.
  - vm_compute. lia.
  - vm_compute. reflexivity.
  - reflexivity.
Defined.

(** C4 at a detached box with two text children: [remove] returns with
    any fuel from two on and runs no yoga call, but of the descendants
    only the first child is cleaned up; the second is never visited and
    stays in the array of the box with the box as its parent. *)
Theorem remove_detached_skips_sibling :
  Dom.parentNode <$> heap orphan_box !! 1 = Some None /\
  exists w',
    (forall fuel, NodeOps.remove (2 + fuel) 1 orphan_box = Some (tt, w')) /\
    Dom.parentNode <$> heap w' !! 2 = Some None /\
    childNodes <$> heap w' !! 1 = Some [3] /\
    Dom.parentNode <$> heap w' !! 3 = Some (Some 1) /\
    Dom.parentNode <$> heap w' !! 1 = Some None /\
    effects w' = [].
Proof.
  split; [reflexivity|].
  exists (result orphan_box (NodeOps.remove 2 1 orphan_box)). split.
  - intros fuel. apply (removeNode_fuel_le 2); [lia|].
    vm_compute. reflexivity.
  - vm_compute. repeat split.
Qed.

(** *** The other renderer options *)

Lemma find_text_child h cs t :
  List.find (NodeOps.isTextNode h) cs = Some t ->
  t ∈ cs /\ exists tn, h !! t = Some tn /\ nodeName tn = "#text".
Proof.
  intros H. apply find_some in H as [Hin Ht]. split.
  - apply list_elem_of_In. exact Hin.
  - unfold NodeOps.isTextNode in Ht. destruct (h !! t) as [tn|]; [|discriminate].
    exists tn. split; [reflexivity|]. apply String.eqb_eq. exact Ht.
Qed.

Lemma setElementText_unfold w node n value :
  heap w !! node = Some n ->
  NodeOps.setElementText node value w =
  match List.find (NodeOps.isTextNode (heap w)) (childNodes n) with
  | Some t => modifyNode t (set_nodeValue value) w
  | None =>
      insertNode node (fresh (dom (heap w))) None
        (mkWorld (<[fresh (dom (heap w)) := TextNode value]> (heap w))
                 (effects w))
  end.
Proof.
  intros Hn. unfold NodeOps.setElementText.
  unfold bind at 1, getNode at 1. rewrite Hn.
  unfold bind at 1, NodeOps.findTextNode.
  destruct (List.find _ _); reflexivity.
Qed.

(** C7: [setText] on a text or comment node stores the text as the value
    of that node, whatever [this] is. On an element it logs the
    redirection and reads [this.setElementText]: called the way the
    renderer calls its options, with [this] undefined, it throws a
    [TypeError] there and the node store is as before; called as a
    method of the options object it takes the path of [setElementText]:
    the first text child, if the element has one, gets the text as its
    value; if it has none, a new text node holding the text, under a
    reference no object had, is handed to [insertNode], which appends it
    to the element and makes the element its parent. *)
Theorem setText_spec (w : World) (node : nat) (n : DOMNode) (value : string) :
  heap w !! node = Some n ->
  let redirected := mkWorld (heap w)
                      (effects w ++ [ConsoleError "TODO: setText" value]) in
  (isElementName (nodeName n) = false ->
   forall this,
     NodeOps.setText this node value w
     = Some (Normal, mkWorld (<[node := set_nodeValue value n]> (heap w))
                             (effects w))) /\
  (isElementName (nodeName n) = true ->
     NodeOps.setText ThisUndefined node value w
     = Some (ThrowTypeError, redirected)) /\
  (isElementName (nodeName n) = true ->
     NodeOps.setText ThisOptions node value w
     = (NodeOps.setElementText node value ;; ret Normal) redirected) /\
  (forall t tn,
     isElementName (nodeName n) = true ->
     List.find (NodeOps.isTextNode (heap w)) (childNodes n) = Some t ->
     heap w !! t = Some tn ->
     NodeOps.setText ThisOptions node value w
     = Some (Normal, mkWorld (<[t := set_nodeValue value tn]> (heap w))
                             (effects redirected))) /\
  (isElementName (nodeName n) = true ->
   List.find (NodeOps.isTextNode (heap w)) (childNodes n) = None ->
   let t := fresh (dom (heap w)) in
   exists w',
     NodeOps.setText ThisOptions node value w = Some (Normal, w') /\
     heap w !! t = None /\
     heap w' !! t = Some (text value (Some node)) /\
     heap w' !! node = Some (set_childNodes (childNodes n ++ [t]) n) /\
     (forall r, r <> t -> r <> node -> heap w' !! r = heap w !! r) /\
     effects w' = effects redirected).
Proof.
  intros Hn redirected.
  assert (Hname : isElementName (nodeName n)
                  = negb (String.eqb (nodeName n) "#text"
                          || String.eqb (nodeName n) "#comment")).
  { unfold isElementName.
    destruct (String.eqb (nodeName n) "#text"),
             (String.eqb (nodeName n) "#comment"); reflexivity. }
  assert (Hredirect : isElementName (nodeName n) = true ->
            forall this,
            NodeOps.setText this node value w
            = match this with
              | ThisOptions => NodeOps.setElementText node value ;; ret Normal
              | ThisUndefined => ret ThrowTypeError
              end redirected).
  { intros He this. rewrite Hname in He. apply negb_true_iff in He.
    unfold NodeOps.setText. unfold bind at 1, getNode at 1. rewrite Hn, He.
    reflexivity. }
  split; [|split; [|split; [|split]]].
  - intros He this. rewrite Hname in He. apply negb_false_iff in He.
    unfold NodeOps.setText. unfold bind at 1, getNode at 1. rewrite Hn, He.
    unfold bind, modifyNode. rewrite Hn. reflexivity.
  - intros He. rewrite (Hredirect He). reflexivity.
  - intros He. rewrite (Hredirect He). reflexivity.
  - intros t tn He Hfind Ht. rewrite (Hredirect He). unfold bind at 1.
    rewrite (setElementText_unfold redirected node n value Hn).
    unfold redirected at 1. cbn [heap]. rewrite Hfind.
    unfold modifyNode, redirected. cbn [heap effects]. rewrite Ht.
    reflexivity.
  - intros He Hfind t.
    assert (Hfresh : heap w !! t = None).
    { apply not_elem_of_dom. apply is_fresh. }
    assert (Hne : t <> node) by (intros Heq; rewrite Heq in Hfresh; congruence).
    assert (Hne' : node <> t) by (intros Heq; apply Hne; symmetry; exact Heq).
    specialize (Hredirect He ThisOptions).
    unfold redirected in *. clear redirected.
    set (log := effects w ++ [ConsoleError "TODO: setText" value]) in *.
    assert (Hspec :
      insertNode node t None (mkWorld (<[t := TextNode value]> (heap w)) log)
      = Some (tt, mkWorld (link node t None (<[t := TextNode value]> (heap w)))
                          log)).
    { rewrite (insertNode_spec _ node t None (TextNode value)); cbn [heap].
      - reflexivity.
      - apply lookup_insert_eq.
      - rewrite lookup_insert_ne by exact Hne. eauto.
      - exact I. }
    exists (mkWorld (link node t None (<[t := TextNode value]> (heap w))) log).
    split.
    { rewrite Hredirect. unfold bind at 1.
      rewrite (setElementText_unfold (mkWorld (heap w) log) node n value Hn).
      cbn [heap effects]. rewrite Hfind. fold t. rewrite Hspec.
      reflexivity. }
    split; [exact Hfresh|]. cbn [heap effects]. rewrite !link_lookup.
    split; [|split; [|split]].
    + rewrite lookup_insert_eq. simpl. unfold linked.
      rewrite (decide_True (P := t = t)) by reflexivity.
      rewrite (decide_False (P := node = t)) by exact Hne'. reflexivity.
    + rewrite lookup_insert_ne by exact Hne. rewrite Hn. simpl. unfold linked.
      rewrite (decide_True (P := node = node)) by reflexivity.
      rewrite (decide_False (P := t = node)) by exact Hne. reflexivity.
    + intros r Hrt Hrn. rewrite link_lookup.
      rewrite lookup_insert_ne by (intros Heq; apply Hrt; symmetry; exact Heq).
      destruct (heap w !! r) as [x|]; [|reflexivity]. simpl. unfold linked.
      rewrite (decide_False (P := t = r))
        by (intros Heq; apply Hrt; symmetry; exact Heq).
      rewrite (decide_False (P := node = r))
        by (intros Heq; apply Hrn; symmetry; exact Heq).
      reflexivity.
    + reflexivity.
Qed.

Lemma setText_spec_witness :
  NodeOps.setText ThisUndefined 1 "hi" sample
  = Some (ThrowTypeError,
          mkWorld (heap sample) [ConsoleError "TODO: setText" "hi"]) /\
  NodeOps.setText ThisUndefined 2 "hi" sample
  = Some (Normal, mkWorld (<[2 := text "hi" (Some 1)]> (heap sample)) []) /\
  NodeOps.setText ThisOptions 1 "hi" sample
  = Some (Normal, mkWorld (<[2 := text "hi" (Some 1)]> (heap sample))
                          [ConsoleError "TODO: setText" "hi"]) /\
  exists w',
    NodeOps.setText ThisOptions 0 "hi" sample = Some (Normal, w') /\
    heap w' !! 4 = Some (text "hi" (Some 0)).
Proof.
  pose proof (setText_spec sample 2 (text "a" (Some 1)) "hi" eq_refl)
    as (Htext & _).
  pose proof (setText_spec sample 1
                (element "tui-box" (Some 0) [2; 3] (Some 101)) "hi" eq_refl)
    as (_ & Hthrow & _ & Hfound & _).
  pose proof (setText_spec sample 0
                (element "tui-root" None [1] (Some 100)) "hi" eq_refl)
    as (_ & _ & _ & _ & Hnew).
  split; [|split; [|split]].
  - apply (Hthrow eq_refl).
  - apply (Htext eq_refl ThisUndefined).
  - apply (Hfound 2 (text "a" (Some 1))); reflexivity.
  - destruct (Hnew eq_refl eq_refl) as (w' & Hrun & _ & Ht & _).
    exists w'. split; [exact Hrun|exact Ht].
Defined.

(** C8: [patchProp] with key ['style'] makes the value the style of the
    element, writing no other field of it and no other node, and, when
    the element has a yoga node, applies the value to that node; with
    key ['internal_transform'] it makes the value the transform of the
    element, again writing nothing else; with any other key it does
    nothing. *)
Theorem patchProp_spec (w : World) (el : nat) (n : DOMNode) (key : string)
  (prevValue nextValue : JSValue) :
  heap w !! el = Some n ->
  (key = "style" ->
     exists n',
       NodeOps.patchProp el key prevValue nextValue w
       = Some (tt, mkWorld (<[el := n']> (heap w))
                           (effects w ++ match yogaNode n with
                                         | Some y => [ApplyStyles y nextValue]
                                         | None => []
                                         end)) /\
       style n' = nextValue /\
       internal_transform n' = internal_transform n /\
       keeps_tree_fields n n') /\
  (key = "internal_transform" ->
     exists n',
       NodeOps.patchProp el key prevValue nextValue w
       = Some (tt, mkWorld (<[el := n']> (heap w)) (effects w)) /\
       internal_transform n' = nextValue /\
       style n' = style n /\
       keeps_tree_fields n n') /\
  (key <> "style" -> key <> "internal_transform" ->
     NodeOps.patchProp el key prevValue nextValue w = Some (tt, w)).
Proof.
  intros Hn. split; [|split].
  - intros ->. exists (set_style nextValue n). split; [|repeat split].
    unfold NodeOps.patchProp. simpl.
    unfold bind, modifyNode, getNode. rewrite Hn. simpl.
    rewrite lookup_insert_eq. simpl.
    destruct (yogaNode n) as [y|]; simpl; [reflexivity|].
    unfold ret. rewrite app_nil_r. reflexivity.
  - intros ->. exists (set_internal_transform nextValue n).
    split; [|repeat split].
    unfold NodeOps.patchProp. simpl.
    unfold modifyNode. rewrite Hn. reflexivity.
  - intros H1 H2. unfold NodeOps.patchProp.
    apply String.eqb_neq in H1, H2. rewrite H1, H2. reflexivity.
Qed.

Lemma patchProp_spec_witness :
  let w1 := result sample
              (NodeOps.patchProp 1 "style" VUndefined (VObj 7) sample) in
  let w2 := result sample
              (NodeOps.patchProp 1 "internal_transform" VUndefined (VFun 3)
                 sample) in
  (exists n',
     NodeOps.patchProp 1 "style" VUndefined (VObj 7) sample
     = Some (tt, mkWorld (<[1 := n']> (heap sample))
                         [ApplyStyles 101 (VObj 7)]) /\
     style n' = VObj 7 /\ internal_transform n' = VUndefined /\
     keeps_tree_fields (element "tui-box" (Some 0) [2; 3] (Some 101)) n') /\
  style <$> heap w1 !! 1 = Some (VObj 7) /\
  internal_transform <$> heap w2 !! 1 = Some (VFun 3) /\
  NodeOps.patchProp 1 "onClick" VUndefined (VFun 3) sample = Some (tt, sample).
Proof.
  intros w1 w2.
  pose proof (patchProp_spec sample 1
                (element "tui-box" (Some 0) [2; 3] (Some 101))) as H.
  split; [|split; [|split]].
  - apply (H "style" VUndefined (VObj 7) eq_refl). reflexivity.
  - vm_compute. reflexivity.
  - vm_compute. reflexivity.
  - apply (H "onClick" VUndefined (VFun 3) eq_refl); discriminate.
Defined.

(** C9: [nextSibling] leaves the store as it is. It returns null for a
    node without parent; for a node whose parent's child array is
    [before ++ node :: after], with [node] not in [before], it returns
    the head of [after], which is null when [node] is the last child. *)
Theorem nextSibling_spec (w : World) (node : nat) (n : DOMNode) :
  heap w !! node = Some n ->
  (Dom.parentNode n = None -> NodeOps.nextSibling node w = Some (None, w)) /\
  (forall p pn before after,
     Dom.parentNode n = Some p -> heap w !! p = Some pn ->
     childNodes pn = before ++ node :: after -> node ∉ before ->
     NodeOps.nextSibling node w = Some (head after, w)) /\
  (forall r, NodeOps.nextSibling node w = Some r -> snd r = w).
Proof.
  intros Hn. split; [|split].
  - intros Hp. unfold NodeOps.nextSibling. unfold_M. rewrite Hn, Hp.
    reflexivity.
  - intros p pn before after Hp Hpn Hcs Hbefore.
    unfold NodeOps.nextSibling. unfold_M. rewrite Hn, Hp. cbn beta iota.
    rewrite Hpn. cbn beta iota. rewrite Hcs, indexOf_first by assumption.
    destruct (Z.leb_spec 0 (Z.of_nat (length before))); [|lia].
    rewrite at_index_after. reflexivity.
  - intros r. unfold NodeOps.nextSibling. unfold_M. rewrite Hn.
    destruct (Dom.parentNode n) as [p|].
    + destruct (heap w !! p); [|discriminate]. intros [= <-]. reflexivity.
    + intros [= <-]. reflexivity.
Qed.

Lemma nextSibling_spec_witness :
  NodeOps.nextSibling 2 sample = Some (Some 3, sample) /\
  NodeOps.nextSibling 3 sample = Some (None, sample) /\
  NodeOps.nextSibling 0 sample = Some (None, sample).
Proof.
  split; [|split].
  - apply (proj1 (proj2 (nextSibling_spec sample 2 (text "a" (Some 1)) eq_refl))
             1 (element "tui-box" (Some 0) [2; 3] (Some 101)) [] [3]);
      try reflexivity. apply not_elem_of_nil.
  - apply (proj1 (proj2 (nextSibling_spec sample 3 (text "b" (Some 1)) eq_refl))
             1 (element "tui-box" (Some 0) [2; 3] (Some 101)) [2] []);
      try reflexivity. apply (bool_decide_unpack _). vm_compute. exact I.
  - apply (proj1 (nextSibling_spec sample 0
                    (element "tui-root" None [1] (Some 100)) eq_refl)).
    reflexivity.
Defined.

End DomFacts.



(** ** Facts about the lifecycle controller *)

Module LifecycleFacts.
Import Lifecycle.
Local Open Scope list_scope.

Lemma settle_interval f st e a : interval (settle f st e a) = interval a.
Proof.
  unfold settle. destruct f as [p|]; [|reflexivity].
  destruct (promises a !! p) as [[| |r]|]; reflexivity.
Qed.

Lemma settle_exitPromise f st e a :
  exitPromise (settle f st e a) = exitPromise a.
Proof.
  unfold settle. destruct f as [p|]; [|reflexivity].
  destruct (promises a !! p) as [[| |r]|]; reflexivity.
Qed.

Lemma exitHandler_interval c s a : interval (exitHandler c s a) = interval a.
Proof.
  unfold exitHandler. simpl.
  destruct (codeNotZero c), (interval a) as [t|] eqn:Hi; simpl;
    try assumption; try reflexivity.
  destruct (isSIGINT s); unfold callResolve, callReject;
    rewrite settle_interval; simpl; assumption.
Qed.

Lemma exitHandler_exitPromise c s a :
  exitPromise (exitHandler c s a) = exitPromise a.
Proof.
  unfold exitHandler. simpl.
  destruct (codeNotZero c), (interval a) as [t|]; simpl; try reflexivity.
  destruct (isSIGINT s); unfold callResolve, callReject;
    rewrite settle_exitPromise; reflexivity.
Qed.

Lemma step_interval a op : interval (step a op) = interval a.
Proof.
  destruct op; simpl; try reflexivity.
  - unfold waitUntilExit. destruct (exitPromise a); reflexivity.
  - apply exitHandler_interval.
Qed.

Lemma run_interval ops : forall a, interval (run ops a) = interval a.
Proof.
  induction ops as [|op ops IH]; intros a; simpl; [reflexivity|].
  unfold run in IH. rewrite IH. apply step_interval.
Qed.

Lemma step_exitPromise a op p :
  exitPromise a = Some p -> exitPromise (step a op) = Some p.
Proof.
  intros H. destruct op; simpl; try assumption.
  - unfold waitUntilExit. rewrite H. assumption.
  - rewrite exitHandler_exitPromise. assumption.
Qed.

Lemma run_exitPromise ops : forall a p,
  exitPromise a = Some p -> exitPromise (run ops a) = Some p.
Proof.
  induction ops as [|op ops IH]; intros a p H; simpl; [assumption|].
  apply IH. apply step_exitPromise. assumption.
Qed.

(** Only the exit handler touches the promise store or the settling
    functions, apart from [waitUntilExit] adding its promise. *)
Lemma step_promise_stable a op q st :
  isExit op = false ->
  promises a !! q = Some st -> promises (step a op) !! q = Some st.
Proof.
  intros Hop H. destruct op; simpl; try assumption; try discriminate.
  unfold waitUntilExit. destruct (exitPromise a); simpl; [assumption|].
  apply lookup_app_l_Some. assumption.
Qed.

Lemma run_promise_stable ops : forall a q st,
  forallb (fun op => negb (isExit op)) ops = true ->
  promises a !! q = Some st -> promises (run ops a) !! q = Some st.
Proof.
  induction ops as [|op ops IH]; intros a q st Hops H; simpl; [assumption|].
  simpl in Hops. apply andb_prop in Hops as [Hop Hops].
  apply IH; [assumption|]. apply step_promise_stable; [|assumption].
  destruct (isExit op); [discriminate|reflexivity].
Qed.

Lemma waitUntilExit_waiting a :
  exitPromise a = None -> waiting (snd (waitUntilExit a)) (fst (waitUntilExit a)).
Proof.
  intros H. unfold waitUntilExit, waiting. rewrite H. simpl.
  repeat split. rewrite lookup_app_r by lia.
  rewrite Nat.sub_diag. reflexivity.
Qed.

Lemma settle_pending p st e a :
  promises a !! p = Some Pending ->
  settle (Some p) st e a =
  mkApp (<[p := st]> (promises a)) (exitPromise a) (resolveExitPromise a)
        (rejectExitPromise a) (interval a) (trace a ++ [e p]).
Proof. intros H. unfold settle. rewrite H. reflexivity. Qed.

(** What the handler does once its guard holds and a promise waits. *)
Lemma exitHandler_settles c s a p t :
  interval a = Some t -> waiting a p -> codeNotZero c = true ->
  exitHandler c s a =
  mkApp (<[p := if isSIGINT s then Fulfilled
                else Rejected (newTuiError c s)]> (promises a))
        (exitPromise a) (resolveExitPromise a) (rejectExitPromise a)
        (interval a)
        (trace a ++ [ConsoleLog c s; ClearInterval t;
                     if isSIGINT s then Resolved p
                     else RejectedWith p (newTuiError c s);
                     CursorShow; StdoutOffResize; RemoveOnExitListener;
                     LogDone; BaseUnmount]).
Proof.
  intros Hi (He & Hres & Hrej & Hp) Hc.
  destruct a as [ps ep res rej iv tr]. simpl in *. subst.
  unfold exitHandler. simpl. rewrite Hc.
  destruct (isSIGINT s); unfold callResolve, callReject, settle; simpl;
    rewrite Hp; unfold unmount, log; simpl; f_equal;
    repeat rewrite <- app_assoc; reflexivity.
Qed.

Lemma exitHandler_guard_fails c s a :
  interval a = None \/ c = Some 0%Z ->
  exitHandler c s a = log (ConsoleLog c s) a.
Proof.
  intros H. unfold exitHandler. simpl.
  destruct H as [H|H]; rewrite H; simpl; [|reflexivity].
  destruct (codeNotZero c); reflexivity.
Qed.

(** *** The exit-wait promise *)

(** C1, as the code has it: on an app that keeps the process alive (the
    [waitUntilExit] option left on) and whose [waitUntilExit()] promise
    [p] is pending, a termination notification whose code is not [0]
    (null or nonzero) fulfils [p] when the signal is SIGINT and otherwise
    rejects it with a [TuiError] carrying that code and that signal; a
    notification with code [0] leaves every promise as it was. *)
Theorem exitHandler_resolution (a : App) (p t : nat) (c : option Z)
  (s : option string) :
  interval a = Some t -> waiting a p ->
  (codeNotZero c = true -> isSIGINT s = true ->
     promises (exitHandler c s a) !! p = Some Fulfilled) /\
  (codeNotZero c = true -> isSIGINT s = false ->
     exists err, promises (exitHandler c s a) !! p = Some (Rejected err) /\
                 code err = c /\ signal err = s) /\
  (c = Some 0%Z -> promises (exitHandler c s a) = promises a).
Proof.
  intros Hi Hw.
  assert (Hlt : p < length (promises a)).
  { destruct Hw as (_ & _ & _ & Hp). eapply lookup_lt_Some; eassumption. }
  repeat split.
  - intros Hc Hs. rewrite (exitHandler_settles c s a p t) by assumption.
    simpl. rewrite Hs. apply list_lookup_insert_eq. assumption.
  - intros Hc Hs. rewrite (exitHandler_settles c s a p t) by assumption.
    simpl. rewrite Hs. exists (newTuiError c s).
    split; [apply list_lookup_insert_eq; assumption|]. split; reflexivity.
  - intros Hc. rewrite exitHandler_guard_fails by (right; assumption).
    reflexivity.
Qed.

Lemma exitHandler_resolution_witness :
  let a := snd (waitUntilExit (createApp (mkOptions None))) in
  promises (exitHandler None (Some "SIGINT") a) !! 0 = Some Fulfilled /\
  (exists err, promises (exitHandler (Some 1%Z) None a) !! 0
               = Some (Rejected err) /\
               code err = Some 1%Z /\ signal err = None) /\
  promises (exitHandler (Some 0%Z) None a) = promises a.
Proof.
  intros a.
  assert (Hi : interval a = Some keepAlive) by reflexivity.
  assert (Hw : waiting a 0) by (repeat split; reflexivity).
  split; [|split].
  - apply (exitHandler_resolution a 0 keepAlive None (Some "SIGINT") Hi Hw);
      reflexivity.
  - apply (exitHandler_resolution a 0 keepAlive (Some 1%Z) None Hi Hw);
      reflexivity.
  - apply (exitHandler_resolution a 0 keepAlive (Some 0%Z) None Hi Hw);
      reflexivity.
Defined.

(** C1 as stated fails: built with [waitUntilExit: false], the app has no
    interval, and a SIGINT notification leaves the promise that
    [waitUntilExit()] returned pending. *)
Lemma exitHandler_resolution_counterexample :
  let a := snd (waitUntilExit (createApp (mkOptions (Some false)))) in
  let p := fst (waitUntilExit a) in
  isSIGINT (Some "SIGINT") = true /\
  promises a !! p = Some Pending /\
  promises (exitHandler None (Some "SIGINT") a) !! p = Some Pending.
Proof. repeat split. Qed.

(** C5: [waitUntilExit()] is memoized. On an app that has no exit promise
    yet, the first call makes one new promise, pending, and changes
    nothing else; whatever is called on the app later, every further
    call returns that same handle and leaves the app as it is; and as
    long as the exit handler does not run, the promise stays pending. *)
Theorem waitUntilExit_memoized (a : App) (later : list Op) :
  exitPromise a = None ->
  let p := fst (waitUntilExit a) in
  let a1 := snd (waitUntilExit a) in
  promises a1 = (promises a ++ [Pending])%list /\
  promises a1 !! p = Some Pending /\
  trace a1 = trace a /\
  waitUntilExit (run later a1) = (p, run later a1) /\
  (forallb (fun op => negb (isExit op)) later = true ->
   promises (run later a1) !! p = Some Pending).
Proof.
  intros Hnone p a1.
  pose proof (waitUntilExit_waiting a Hnone) as (He & _ & _ & Hp).
  fold p a1 in He, Hp.
  repeat split.
  - subst a1. unfold waitUntilExit. rewrite Hnone. reflexivity.
  - assumption.
  - subst a1. unfold waitUntilExit. rewrite Hnone. reflexivity.
  - unfold waitUntilExit at 1.
    rewrite (run_exitPromise later a1 p He). reflexivity.
  - intros Hops. apply run_promise_stable; assumption.
Qed.

Lemma waitUntilExit_memoized_witness :
  let a := createApp (mkOptions None) in
  let later := [OpMount; OpWaitUntilExit; OpWaitUntilExit] in
  let p := fst (waitUntilExit a) in
  let a1 := snd (waitUntilExit a) in
  promises a1 = (promises a ++ [Pending])%list /\
  promises a1 !! p = Some Pending /\
  trace a1 = trace a /\
  waitUntilExit (run later a1) = (p, run later a1) /\
  (forallb (fun op => negb (isExit op)) later = true ->
   promises (run later a1) !! p = Some Pending).
Proof.
  intros a later.
  apply (waitUntilExit_memoized a later). reflexivity.
Defined.

(** C6, as the code has it: when the guard of the exit handler holds and
    a promise waits, the handler logs the notification, clears the
    interval, settles the promise, and only then shows the cursor and
    runs [unmount()], all in the one synchronous call. *)
Theorem exitHandler_order (a : App) (p t : nat) (c : option Z)
  (s : option string) :
  interval a = Some t -> waiting a p -> codeNotZero c = true ->
  let settled := if isSIGINT s then Resolved p
                 else RejectedWith p (newTuiError c s) in
  trace (exitHandler c s a) =
    (trace a ++ [ConsoleLog c s; ClearInterval t; settled; CursorShow]
             ++ trace (unmount (mkApp [] None None None None [])))%list /\
  occursBefore settled CursorShow (trace (exitHandler c s a)) = true /\
  occursBefore settled BaseUnmount (trace (exitHandler c s a)) = true.
Proof.
  intros Hi Hw Hc settled.
  rewrite (exitHandler_settles c s a p t) by assumption. simpl.
  fold settled. split; [reflexivity|].
  assert (Hocc : forall tr e l, e ∈ l ->
            occursBefore settled e (tr ++ settled :: l) = true).
  { intros tr e l Hin. induction tr as [|x tr IH]; simpl.
    - rewrite decide_True by reflexivity. apply bool_decide_eq_true. exact Hin.
    - destruct (decide (x = settled)); [|exact IH].
      apply bool_decide_eq_true. apply elem_of_app. right.
      apply elem_of_cons. right. exact Hin. }
  split.
  - replace (trace a ++ _) with
      ((trace a ++ [ConsoleLog c s; ClearInterval t]) ++ settled ::
       [CursorShow; StdoutOffResize; RemoveOnExitListener; LogDone; BaseUnmount])
      by (rewrite <- app_assoc; reflexivity).
    apply Hocc. set_solver.
  - replace (trace a ++ _) with
      ((trace a ++ [ConsoleLog c s; ClearInterval t]) ++ settled ::
       [CursorShow; StdoutOffResize; RemoveOnExitListener; LogDone; BaseUnmount])
      by (rewrite <- app_assoc; reflexivity).
    apply Hocc. set_solver.
Qed.

Lemma exitHandler_order_witness :
  let a := snd (waitUntilExit (createApp (mkOptions None))) in
  trace (exitHandler (Some 1%Z) None a) =
    (trace a ++ [ConsoleLog (Some 1%Z) None; ClearInterval keepAlive;
                 RejectedWith 0 (newTuiError (Some 1%Z) None); CursorShow]
             ++ trace (unmount (mkApp [] None None None None [])))%list /\
  occursBefore (RejectedWith 0 (newTuiError (Some 1%Z) None)) CursorShow
    (trace (exitHandler (Some 1%Z) None a)) = true /\
  occursBefore (RejectedWith 0 (newTuiError (Some 1%Z) None)) BaseUnmount
    (trace (exitHandler (Some 1%Z) None a)) = true.
Proof.
  intros a.
  apply (exitHandler_order a 0 keepAlive (Some 1%Z) None).
  - reflexivity.
  - repeat split; reflexivity.
  - reflexivity.
Defined.

(** C6 as stated fails: on SIGINT the promise is resolved first; the
    cursor is shown and [unmount()] runs after it, not before. *)
Lemma exitHandler_order_counterexample :
  let a := snd (waitUntilExit (createApp (mkOptions None))) in
  let tr := trace (exitHandler None (Some "SIGINT") a) in
  promises (exitHandler None (Some "SIGINT") a) !! 0 = Some Fulfilled /\
  tr = [SetInterval keepAlive; ConsoleLog None (Some "SIGINT");
        ClearInterval keepAlive; Resolved 0; CursorShow; StdoutOffResize;
        RemoveOnExitListener; LogDone; BaseUnmount] /\
  occursBefore CursorShow (Resolved 0) tr = false /\
  occursBefore BaseUnmount (Resolved 0) tr = false.
Proof. repeat split. Qed.

(** C10: built with [waitUntilExit: false], the app has no interval, and
    whatever was called on it since, the exit handler does no more than
    log the notification, for every code and signal: no promise changes,
    the cursor is not shown, [unmount()] is not run. *)
Theorem exitHandler_without_keepalive (before : list Op) (c : option Z)
  (s : option string) :
  let a := run before (createApp (mkOptions (Some false))) in
  interval a = None /\
  promises (exitHandler c s a) = promises a /\
  trace (exitHandler c s a) = (trace a ++ [ConsoleLog c s])%list /\
  exitHandler c s a = log (ConsoleLog c s) a.
Proof.
  intros a.
  assert (Hi : interval a = None).
  { subst a. rewrite run_interval. reflexivity. }
  rewrite exitHandler_guard_fails by (left; exact Hi).
  repeat split. exact Hi.
Qed.

End LifecycleFacts.

(** ** Further laws of the renderer options *)

Module DomLaws.
Import JsArray Dom DomSpec DomShape JsArrayFacts DomFacts.
Local Open Scope list_scope.

Lemma removeFirst_once x l :
  count_occ Nat.eq_dec l x <= 1 -> x ∉ removeFirst x l.
Proof.
  intros Hcnt. destruct (decide (x ∈ l)) as [Hin|Hnin].
  - destruct (elem_of_first_split x l Hin) as (l1 & l2 & -> & Hl1).
    rewrite removeFirst_first by assumption.
    rewrite count_occ_app in Hcnt. simpl in Hcnt.
    destruct (Nat.eq_dec x x) as [_|Hne]; [|congruence].
    intros Hx. apply elem_of_app in Hx as [Hx|Hx]; [contradiction|].
    apply list_elem_of_In in Hx.
    apply (count_occ_In Nat.eq_dec) in Hx. lia.
  - rewrite removeFirst_absent by assumption. assumption.
Qed.

Lemma detach_cases node w w' :
  detach node w = Some (tt, w') ->
  w' = w \/
  exists n p pn, heap w !! node = Some n /\ parentNode n = Some p /\
                 heap w !! p = Some pn /\
                 w' = mkWorld (unlink node p (heap w))
                              (effects w ++ yogaRelease n pn).
Proof.
  intros H. destruct (heap w !! node) as [n|] eqn:Hn.
  2:{ unfold detach in H. unfold_M. rewrite Hn in H. discriminate. }
  destruct (parentNode n) as [p|] eqn:Hp.
  2:{ rewrite (detach_orphan _ _ _ Hn Hp) in H. injection H as <-. left.
      reflexivity. }
  destruct (heap w !! p) as [pn|] eqn:Hpn.
  2:{ unfold detach in H. unfold_M. rewrite Hn, Hp, Hpn in H. discriminate. }
  rewrite (detach_spec _ _ _ _ _ Hn Hp Hpn) in H. injection H as <-.
  right. exists n, p, pn. auto.
Qed.

(** *** After [remove] *)

(** X1: once [remove(node)] has returned, [parentNode(node)] and
    [nextSibling(node)] both answer null, on any store. *)
Theorem remove_then_queries (fuel node : nat) (w w' : World) :
  NodeOps.remove fuel node w = Some (tt, w') ->
  NodeOps.parentNode node w' = Some (None, w') /\
  NodeOps.nextSibling node w' = Some (None, w').
Proof.
  intros H. apply removeNode_detaches in H.
  destruct (heap w' !! node) as [n'|] eqn:Hn; [|discriminate].
  simpl in H. injection H as Hp.
  unfold NodeOps.parentNode, NodeOps.nextSibling. unfold_M.
  rewrite Hn, Hp. split; reflexivity.
Qed.

Lemma remove_then_queries_witness :
  let w' := result sample (NodeOps.remove 2 1 sample) in
  NodeOps.parentNode 1 w' = Some (None, w') /\
  NodeOps.nextSibling 1 w' = Some (None, w').
Proof.
  intros w'. apply (remove_then_queries 2 1 sample w').
  vm_compute. reflexivity.
Defined.

Lemma detach_backlinked node w w' :
  backlinked w -> detach node w = Some (tt, w') -> backlinked w'.
Proof.
  intros Hb H.
  destruct (detach_cases _ _ _ H) as [->|(n & p & pn & Hn & Hp & Hpn & ->)];
    [exact Hb|].
  intros r pn' Hr. simpl in Hr |- *. rewrite unlink_lookup in Hr.
  destruct (heap w !! r) as [pn0|] eqn:Hr0; [|discriminate].
  simpl in Hr. injection Hr as <-.
  pose proof (Hb r pn0 Hr0) as Hrb. unfold backlinked_at in Hrb.
  rewrite Forall_forall in Hrb.
  unfold backlinked_at. rewrite unlinked_children.
  apply Forall_forall. intros c Hc.
  assert (Hc0 : c ∈ childNodes pn0).
  { destruct (decide (p = r)); [|exact Hc].
    eapply elem_of_sublist; [exact Hc|apply removeFirst_sublist]. }
  destruct (Hrb c Hc0) as [Hcnt Hpar].
  assert (Hne : node <> c).
  { intros <-. rewrite Hn in Hpar. simpl in Hpar. rewrite Hp in Hpar.
    injection Hpar as ->. rewrite decide_True in Hc by reflexivity.
    revert Hc. apply removeFirst_once. exact Hcnt. }
  split.
  - destruct (decide (p = r)); [|exact Hcnt].
    rewrite removeFirst_count_ne by congruence. exact Hcnt.
  - rewrite unlink_lookup. destruct (heap w !! c) as [cn|]; [|discriminate].
    simpl in Hpar |- *. rewrite unlinked_parent.
    rewrite decide_False by exact Hne. exact Hpar.
Qed.



Lemma same_payload_refl n : same_payload n n.
Proof. repeat split. Qed.

Lemma payload_kept_refl w : payload_kept w w.
Proof.
  intros r. destruct (heap w !! r); constructor. apply same_payload_refl.
Qed.

Lemma payload_kept_trans w1 w2 w3 :
  payload_kept w1 w2 -> payload_kept w2 w3 -> payload_kept w1 w3.
Proof.
  intros H12 H23 r. specialize (H12 r). specialize (H23 r).
  destruct H12 as [n1 n2 (Ha & Hb & Hc)|]; inversion H23 as [? n3 (Ha' & Hb' & Hc')|];
    subst; constructor.
  repeat split; congruence.
Qed.

Lemma detach_payload node w w' :
  detach node w = Some (tt, w') -> payload_kept w w'.
Proof.
  intros H.
  destruct (detach_cases _ _ _ H) as [->|(n & p & pn & Hn & Hp & Hpn & ->)];
    [apply payload_kept_refl|].
  intros r. simpl. rewrite unlink_lookup.
  destruct (heap w !! r) as [x|]; simpl; constructor.
  unfold unlinked. repeat case_decide; destruct x; repeat split.
Qed.

Lemma shrink_dom w w' : shrink w w' -> dom (heap w') = dom (heap w).
Proof.
  intros Hs. apply set_eq. intros r. rewrite !elem_of_dom.
  specialize (Hs r).
  destruct (heap w !! r) as [x|], (heap w' !! r) as [y|]; inversion Hs;
    split; intros [z Hz]; try discriminate; eauto.
Qed.

(** X3: [remove] allocates and drops no node and writes no name, value,
    style, transform or yoga handle: all it does to a node is take
    entries out of its child array and set its parent reference to
    null. References held by nodes keep naming objects. *)
Theorem remove_frame (fuel node : nat) (w w' : World) :
  NodeOps.remove fuel node w = Some (tt, w') ->
  dom (heap w') = dom (heap w) /\
  shrink w w' /\ payload_kept w w' /\
  (closed w -> closed w').
Proof.
  intros H. unfold NodeOps.remove in H.
  pose proof (removeNode_shrink _ _ _ _ H) as Hs.
  split; [apply shrink_dom; exact Hs|]. split; [exact Hs|]. split.
  - revert H. apply (removeNode_preserves (payload_kept w));
      [|apply payload_kept_refl].
    intros r w1 w2 H1 H2. eapply payload_kept_trans; [exact H1|].
    eapply detach_payload; eassumption.
  - intros Hc. eapply shrink_closed; eassumption.
Qed.

Lemma remove_frame_witness :
  let w' := result sample (NodeOps.remove 2 1 sample) in
  dom (heap w') = dom (heap sample) /\
  shrink sample w' /\ payload_kept sample w' /\
  (closed sample -> closed w').
Proof.
  intros w'. apply (remove_frame 2 1 sample w').
  vm_compute. reflexivity.
Defined.

Lemma owns_shrink w w' y : shrink w w' -> owns (heap w') y -> owns (heap w) y.
Proof.
  intros Hs (r & n' & Hr & Hy).
  destruct (shrink_lookup_inv _ _ _ _ Hs Hr) as (n & Hn & _ & _ & _ & Hyn).
  exists r, n. split; [exact Hn|congruence].
Qed.

Lemma yogaRelease_releases h node n p pn :
  h !! node = Some n -> h !! p = Some pn ->
  Forall (releases h) (yogaRelease n pn).
Proof.
  intros Hn Hpn. unfold yogaRelease.
  destruct (yogaNode n) as [y|] eqn:Hy; [|constructor].
  assert (Hown : owns h y) by (exists node, n; auto).
  destruct (yogaNode pn) as [py|] eqn:Hpy; simpl.
  - assert (Hown' : owns h py) by (exists p, pn; auto).
    repeat constructor; assumption.
  - repeat constructor; assumption.
Qed.

Lemma releases_shrink w w' e :
  shrink w w' -> releases (heap w') e -> releases (heap w) e.
Proof.
  intros Hs. destruct e; simpl; try tauto.
  - intros [H1 H2]. split; eapply owns_shrink; eassumption.
  - apply owns_shrink. exact Hs.
  - apply owns_shrink. exact Hs.
Qed.

(** X4: [remove] only appends to the log of outside calls, and what it
    appends are yoga calls ([removeChild], [unsetMeasureFunc],
    [freeRecursive]) on handles that nodes of the store own: it never
    logs to the console and never applies styles. *)
Theorem remove_effects (fuel node : nat) (w w' : World) :
  NodeOps.remove fuel node w = Some (tt, w') ->
  exists calls,
    effects w' = effects w ++ calls /\ Forall (releases (heap w)) calls.
Proof.
  intros H. unfold NodeOps.remove in H.
  enough (Hp : shrink w w' /\
               exists calls, effects w' = effects w ++ calls /\
                             Forall (releases (heap w)) calls)
    by (exact (proj2 Hp)).
  revert H.
  apply (removeNode_preserves
           (fun w1 => shrink w w1 /\
                      exists calls, effects w1 = effects w ++ calls /\
                                    Forall (releases (heap w)) calls)).
  - intros r w1 w2 (Hs & calls & He & Hf) Hd.
    split; [eapply shrink_trans; [exact Hs|eapply detach_shrink; exact Hd]|].
    destruct (detach_cases _ _ _ Hd) as [->|(n & p & pn & Hn & Hp & Hpn & ->)].
    + exists calls. auto.
    + exists (calls ++ yogaRelease n pn). simpl. split.
      * rewrite He, app_assoc. reflexivity.
      * apply Forall_app. split; [exact Hf|].
        eapply Forall_impl;
          [exact (yogaRelease_releases _ _ _ _ _ Hn Hpn)|].
        intros e. apply releases_shrink. exact Hs.
  - split; [apply shrink_refl|]. exists []. rewrite app_nil_r.
    split; [reflexivity|constructor].
Qed.

Lemma remove_effects_witness :
  let w' := result sample (NodeOps.remove 2 1 sample) in
  exists calls,
    effects w' = effects sample ++ calls /\
    Forall (releases (heap sample)) calls.
Proof.
  intros w'. apply (remove_effects 2 1 sample w').
  vm_compute. reflexivity.
Defined.

(** X5: on a closed store whose child arrays form no cycle, [remove]
    returns as soon as the fuel exceeds the rank of the node, more fuel
    gives the same store, and that store is closed and acyclic again. *)
Theorem remove_terminates (rk : nat -> nat) (fuel fuel' node : nat)
  (w : World) :
  closed w -> ranked rk w -> is_Some (heap w !! node) ->
  rk node < fuel -> fuel <= fuel' ->
  exists w',
    NodeOps.remove fuel node w = Some (tt, w') /\
    NodeOps.remove fuel' node w = Some (tt, w') /\
    closed w' /\ ranked rk w'.
Proof.
  intros Hc Hr Hn Hlt Hle.
  destruct (removeNode_total rk fuel node w Hc Hr Hn Hlt) as [w' Hw'].
  exists w'. unfold NodeOps.remove. split; [exact Hw'|].
  split; [eapply removeNode_fuel_le; eassumption|].
  pose proof (removeNode_shrink _ _ _ _ Hw') as Hs.
  split; [eapply shrink_closed|eapply shrink_ranked]; eassumption.
Qed.

Lemma remove_terminates_witness :
  exists w',
    NodeOps.remove 3 0 sample = Some (tt, w') /\
    NodeOps.remove 7 0 sample = Some (tt, w') /\
    closed w' /\ ranked sample_rank w'.
Proof.
  apply (remove_terminates sample_rank 3 7 0 sample).
  - apply (bool_decide_unpack _). vm_compute. exact I.
  - apply (bool_decide_unpack _). vm_compute. exact I.
  - vm_compute. eexists. reflexivity.
  - vm_compute. lia.
  - lia.
Defined.

(** *** Which children [remove] reaches *)

Lemma odds_cons a l : odds (a :: l) = evens l.
Proof. destruct l; reflexivity. Qed.

Lemma elem_of_odds_evens l :
  (forall x, x ∈ odds l -> x ∈ l) /\ (forall x, x ∈ evens l -> x ∈ l).
Proof.
  induction l as [|a l [IHo IHe]]; [split; intros x H; inversion H|].
  split; intros x H.
  - rewrite odds_cons in H. right. apply IHe. exact H.
  - simpl in H. apply elem_of_cons in H as [->|H]; [left|right; apply IHo; exact H].
Qed.

Lemma removeNode_leaf fuel c w cn :
  heap w !! c = Some cn ->
  isElementName (nodeName cn) = false \/ childNodes cn = [] ->
  removeNode (S fuel) c w = detach c w.
Proof.
  intros Hc Hleaf. rewrite (removeNode_unfold _ _ _ _ Hc).
  unfold when. destruct (isElementName (nodeName cn)); [|reflexivity].
  destruct Hleaf as [Hl|Hl]; [discriminate|].
  rewrite (mapChildNodes_unfold _ _ _ _ Hc), Hl. reflexivity.
Qed.

Lemma forIndices_beyond f node ks w n :
  heap w !! node = Some n ->
  Forall (fun k => length (childNodes n) <= k) ks ->
  forIndices (visit f node) ks w = Some (tt, w).
Proof.
  intros Hn. induction ks as [|k ks IH]; intros Hks; [reflexivity|].
  apply Forall_cons in Hks as [Hk Hks]. simpl.
  unfold bind at 1, visit, bind, getNode. rewrite Hn.
  rewrite (lookup_ge_None_2 _ _ Hk). simpl. apply IH. exact Hks.
Qed.

Lemma seq_beyond j m : Forall (fun k => j <= k) (seq j m).
Proof.
  apply Forall_forall. intros k Hk. apply elem_of_seq in Hk. lia.
Qed.

(** Detaching the child [c] of [node] that stands after [kept]. *)
Lemma unlink_child w node n c cn kept rest e :
  heap w !! node = Some n -> heap w !! c = Some cn -> c <> node ->
  childNodes n = kept ++ c :: rest -> c ∉ kept ->
  let w1 := mkWorld (unlink c node (heap w)) e in
  heap w1 !! node = Some (set_childNodes (kept ++ rest) n) /\
  parentNode <$> heap w1 !! c = Some None /\
  (forall x, x <> c -> x <> node -> heap w1 !! x = heap w !! x).
Proof.
  intros Hn Hc Hne Hcs Hkept w1. subst w1. cbn [heap]. split; [|split].
  - rewrite unlink_lookup, Hn. simpl. unfold unlinked.
    rewrite (decide_True (P := node = node)) by reflexivity.
    rewrite (decide_False (P := c = node)) by exact Hne.
    rewrite Hcs, removeFirst_first by exact Hkept. reflexivity.
  - rewrite unlink_lookup, Hc. simpl. rewrite unlinked_parent.
    rewrite decide_True by reflexivity. reflexivity.
  - intros x Hxc Hxn. rewrite unlink_lookup.
    destruct (heap w !! x) as [xn|]; [|reflexivity]. simpl. unfold unlinked.
    rewrite (decide_False (P := node = x)) by congruence.
    rewrite (decide_False (P := c = x)) by congruence. reflexivity.
Qed.

Lemma leaf_of_same h h' node x :
  h' !! x = h !! x -> leaf_of h node x -> leaf_of h' node x.
Proof. unfold leaf_of. intros ->. trivial. Qed.

Lemma map_loop_flat fuel node : forall m rest kept w n,
  heap w !! node = Some n ->
  childNodes n = kept ++ rest ->
  NoDup (kept ++ rest) -> node ∉ kept ++ rest ->
  Forall (leaf_of (heap w) node) (kept ++ rest) ->
  length rest <= m ->
  exists w' n',
    forIndices (visit (removeNode (S fuel)) node) (seq (length kept) m) w
    = Some (tt, w') /\
    shrink w w' /\
    heap w' !! node = Some n' /\
    childNodes n' = kept ++ odds rest /\
    Forall (leaf_of (heap w') node) (kept ++ odds rest) /\
    Forall (fun c => parentNode <$> heap w' !! c = Some None) (evens rest).
Proof.
  induction m as [|m IH]; intros rest kept w n Hn Hcs Hnd Hnode Hleaf Hlen.
  { destruct rest; [|simpl in Hlen; lia].
    exists w, n. simpl. repeat split; auto using shrink_refl. }
  destruct rest as [|c rest1].
  { exists w, n. split.
    - apply (forIndices_beyond _ _ _ _ n Hn).
      rewrite Hcs, app_nil_r. apply seq_beyond.
    - simpl. repeat split; auto using shrink_refl. }
  (* the visit of index [length kept] removes [c] *)
  assert (Hc : c ∈ kept ++ c :: rest1)
    by (apply elem_of_app; right; left).
  assert (Hcn : c <> node) by (intros ->; contradiction).
  assert (Hck : c ∉ kept).
  { apply NoDup_app in Hnd as (_ & Hdis & _). intros Hin.
    apply (Hdis c Hin). left. }
  pose proof Hleaf as Hleaf0. rewrite Forall_forall in Hleaf0.
  pose proof (Hleaf0 c Hc) as Hlc. unfold leaf_of in Hlc.
  destruct (heap w !! c) as [cn|] eqn:Hcw; [|contradiction].
  destruct Hlc as [Hcp Hcl].
  pose proof (detach_spec _ _ _ _ _ Hcw Hcp Hn) as Hdet.
  set (w1 := mkWorld (unlink c node (heap w)) (effects w ++ yogaRelease cn n))
    in Hdet.
  destruct (unlink_child w node n c cn kept rest1
              (effects w ++ yogaRelease cn n) Hn Hcw Hcn Hcs Hck)
    as (Hn1 & Hc1 & Hsame). fold w1 in Hn1, Hc1, Hsame.
  assert (Hstep : visit (removeNode (S fuel)) node (length kept) w
                  = Some (tt, w1)).
  { unfold visit, bind, getNode. rewrite Hn, Hcs.
    rewrite list_lookup_middle by reflexivity.
    rewrite (removeNode_leaf _ _ _ _ Hcw Hcl). exact Hdet. }
  assert (Hs1 : shrink w w1) by apply unlink_shrink.
  assert (Hnd1 : NoDup (kept ++ rest1)).
  { apply NoDup_app in Hnd as (Hk & Hdis & Hr).
    apply NoDup_cons in Hr as [_ Hr]. apply NoDup_app.
    split; [exact Hk|]. split; [|exact Hr].
    intros x Hx Hx'. apply (Hdis x Hx). right. exact Hx'. }
  assert (Hsub : forall x, x ∈ kept ++ rest1 -> x ∈ kept ++ c :: rest1).
  { intros x Hx. apply elem_of_app in Hx as [Hx|Hx]; apply elem_of_app;
      [left; exact Hx|right; right; exact Hx]. }
  assert (Hxc : forall x, x ∈ kept ++ rest1 -> x <> c).
  { intros x Hx ->. apply NoDup_app in Hnd as (_ & Hdis & Hr).
    apply NoDup_cons in Hr as [Hcr _].
    apply elem_of_app in Hx as [Hx|Hx]; contradiction. }
  assert (Hleaf1 : Forall (leaf_of (heap w1) node) (kept ++ rest1)).
  { apply Forall_forall. intros x Hx.
    apply (leaf_of_same (heap w)); [|apply Hleaf0, Hsub, Hx].
    apply Hsame; [apply Hxc, Hx|].
    intros ->. apply Hnode, Hsub, Hx. }
  cbn [seq forIndices]. unfold bind at 1. rewrite Hstep.
  destruct rest1 as [|r0 rest2].
  - (* [c] was the last entry: the indices left are beyond the array *)
    exists w1, (set_childNodes (kept ++ []) n). split.
    + apply (forIndices_beyond _ _ _ _ _ Hn1). simpl.
      rewrite app_nil_r. eapply Forall_impl; [apply seq_beyond|].
      intros k Hk. simpl in Hk. lia.
    + simpl. repeat split; auto.
  - (* the next visit is two entries further: [r0] survives *)
    destruct (IH rest2 (kept ++ [r0]) w1
                (set_childNodes (kept ++ r0 :: rest2) n)) as
      (w' & n' & Hloop & Hs & Hn' & Hcs' & Hleaf' & Hev).
    + exact Hn1.
    + simpl. rewrite <- app_assoc. reflexivity.
    + rewrite <- app_assoc. exact Hnd1.
    + rewrite <- app_assoc. intros Hin. apply Hnode, Hsub, Hin.
    + rewrite <- app_assoc. exact Hleaf1.
    + simpl in Hlen. lia.
    + rewrite length_app in Hloop. simpl in Hloop.
      rewrite Nat.add_1_r in Hloop.
      exists w', n'. split; [exact Hloop|].
      split; [eapply shrink_trans; eassumption|].
      split; [exact Hn'|].
      rewrite <- app_assoc in Hcs', Hleaf'. simpl in Hcs', Hleaf'.
      split; [exact Hcs'|]. split; [exact Hleaf'|].
      change (evens (c :: r0 :: rest2)) with (c :: odds (r0 :: rest2)).
      rewrite odds_cons. constructor; [|exact Hev].
      destruct (heap w1 !! c) as [c1|] eqn:Hc1'; [|discriminate].
      simpl in Hc1. injection Hc1 as Hc1.
      destruct (shrink_lookup _ _ _ _ Hs Hc1') as (c2 & Hc2 & _ & Hpar & _).
      rewrite Hc2. simpl. destruct Hpar as [Hpar|Hpar]; congruence.
Qed.

(** X6: on an element whose children are leaves in a duplicate-free
    array, [remove] reaches only the children at even indices: the
    element ends up holding exactly the children that stood at odd
    indices, each still naming it as parent, while those at even indices
    are detached. *)
Theorem remove_flat (fuel node : nat) (w : World) (n : DOMNode) :
  closed w ->
  heap w !! node = Some n -> isElementName (nodeName n) = true ->
  NoDup (childNodes n) -> node ∉ childNodes n ->
  Forall (leaf_of (heap w) node) (childNodes n) ->
  exists w',
    NodeOps.remove (2 + fuel) node w = Some (tt, w') /\
    childNodes <$> heap w' !! node = Some (odds (childNodes n)) /\
    Forall (fun c => parentNode <$> heap w' !! c = Some (Some node))
           (odds (childNodes n)) /\
    Forall (fun c => parentNode <$> heap w' !! c = Some None)
           (evens (childNodes n)).
Proof.
  intros Hclosed Hn Hel Hnd Hnode Hleaf.
  destruct (map_loop_flat fuel node (length (childNodes n)) (childNodes n) []
              w n Hn eq_refl Hnd Hnode Hleaf (le_n _))
    as (w1 & n1 & Hloop & Hs & Hn1 & Hcs1 & Hleaf1 & Hev1).
  cbn [length app] in Hloop, Hcs1, Hleaf1.
  assert (Hpar1 : Forall (fun c => parentNode <$> heap w1 !! c
                                   = Some (Some node)) (odds (childNodes n))).
  { eapply Forall_impl; [exact Hleaf1|]. intros c Hc. unfold leaf_of in Hc.
    destruct (heap w1 !! c) as [cn|]; [|contradiction].
    simpl. destruct Hc as [-> _]. reflexivity. }
  assert (Hrun : NodeOps.remove (2 + fuel) node w = detach node w1).
  { unfold NodeOps.remove. simpl plus.
    rewrite (removeNode_unfold _ _ _ _ Hn), Hel. unfold when.
    rewrite (mapChildNodes_unfold _ _ _ _ Hn), Hloop. reflexivity. }
  rewrite Hrun.
  destruct (shrink_lookup _ _ _ _ Hs Hn) as (n1' & Hn1' & _ & Hpar & _).
  rewrite Hn1 in Hn1'. injection Hn1' as <-.
  destruct (parentNode n1) as [p|] eqn:Hp1.
  2:{ exists w1. rewrite (detach_orphan _ _ _ Hn1 Hp1).
      split; [reflexivity|]. rewrite Hn1. simpl. rewrite Hcs1. auto. }
  assert (Hp0 : parentNode n = Some p)
    by (destruct Hpar as [Hpar|Hpar]; congruence).
  destruct (Hclosed node n Hn) as [Hcp _]. rewrite Hp0 in Hcp.
  destruct Hcp as [pn Hpn].
  destruct (shrink_lookup _ _ _ _ Hs Hpn) as (pn1 & Hpn1 & _).
  rewrite (detach_spec _ _ _ _ _ Hn1 Hp1 Hpn1).
  eexists. split; [reflexivity|]. cbn [heap].
  assert (Hodd : node ∉ odds (childNodes n)).
  { intros Hin. apply Hnode. apply (proj1 (elem_of_odds_evens _)). exact Hin. }
  assert (Heven : node ∉ evens (childNodes n)).
  { intros Hin. apply Hnode. apply (proj2 (elem_of_odds_evens _)). exact Hin. }
  assert (Hkeep : forall c v, c <> node ->
            parentNode <$> heap w1 !! c = Some v ->
            parentNode <$> unlink node p (heap w1) !! c = Some v).
  { intros c v Hc Hv. rewrite unlink_lookup.
    destruct (heap w1 !! c) as [cn|]; [|discriminate]. simpl in Hv |- *.
    rewrite unlinked_parent, decide_False by congruence. exact Hv. }
  split; [|split].
  - rewrite unlink_lookup, Hn1. simpl. rewrite unlinked_children, Hcs1.
    destruct (decide (p = node)); [|reflexivity].
    rewrite removeFirst_absent by exact Hodd. reflexivity.
  - rewrite Forall_forall in Hpar1. apply Forall_forall. intros c Hc.
    apply Hkeep; [intros ->; contradiction|apply Hpar1, Hc].
  - rewrite Forall_forall in Hev1. apply Forall_forall. intros c Hc.
    apply Hkeep; [intros ->; contradiction|apply Hev1, Hc].
Qed.

Lemma remove_flat_witness :
  exists w',
    NodeOps.remove 2 0 row = Some (tt, w') /\
    childNodes <$> heap w' !! 0 = Some [2; 4] /\
    Forall (fun c => parentNode <$> heap w' !! c = Some (Some 0)) [2; 4] /\
    Forall (fun c => parentNode <$> heap w' !! c = Some None) [1; 3; 5].
Proof.
  apply (remove_flat 0 0 row
           (element "tui-box" None [1; 2; 3; 4; 5] (Some 100))).
  - apply (bool_decide_unpack _). vm_compute. exact I.
  - reflexivity.
  - reflexivity.
  - apply (bool_decide_unpack _). vm_compute. exact I.
  - apply (bool_decide_unpack _). vm_compute. exact I.
  - apply (bool_decide_unpack _). vm_compute. exact I.
Defined.

(** *** Queries and patches *)

(** X7: with a parent reference that names a node which does not hold
    [node] (a stale reference), [nextSibling(node)] is null; and a
    non-null answer is always the entry that follows the first
    occurrence of [node] in the array of its parent. *)
Theorem nextSibling_cases (w : World) (node p : nat) (n pn : DOMNode) :
  heap w !! node = Some n -> parentNode n = Some p ->
  heap w !! p = Some pn ->
  (node ∉ childNodes pn -> NodeOps.nextSibling node w = Some (None, w)) /\
  (forall s, NodeOps.nextSibling node w = Some (Some s, w) ->
     exists before after,
       childNodes pn = before ++ node :: s :: after /\ node ∉ before).
Proof.
  intros Hn Hp Hpn.
  assert (Hrun : NodeOps.nextSibling node w
                 = Some (if (0 <=? indexOf node (childNodes pn))%Z
                         then at_index (childNodes pn)
                                (indexOf node (childNodes pn) + 1)
                         else None, w)).
  { unfold NodeOps.nextSibling. unfold_M. rewrite Hn, Hp. cbn beta iota.
    rewrite Hpn. reflexivity. }
  rewrite Hrun. split.
  - intros Hnin. rewrite (indexOf_absent _ _ Hnin). reflexivity.
  - intros s Hs. injection Hs as Hs.
    destruct (Z.leb_spec 0 (indexOf node (childNodes pn))) as [Hge|Hlt];
      [|discriminate].
    assert (Hin : node ∈ childNodes pn) by (apply indexOf_present; lia).
    destruct (elem_of_first_split _ _ Hin) as (before & rest & Hcs & Hb).
    rewrite Hcs, indexOf_first, at_index_after in Hs by exact Hb.
    destruct rest as [|s' after]; [discriminate|].
    simpl in Hs. injection Hs as ->.
    exists before, after. split; assumption.
Qed.

Lemma nextSibling_cases_witness :
  let stale := mkWorld (<[2 := text "a" (Some 1)]> (heap loose)) [] in
  NodeOps.nextSibling 2 stale = Some (None, stale) /\
  (forall s, NodeOps.nextSibling 2 sample = Some (Some s, sample) ->
     exists before after, [2; 3] = before ++ 2 :: s :: after /\ 2 ∉ before).
Proof.
  intros stale. split.
  - apply (proj1 (nextSibling_cases stale 2 1 (text "a" (Some 1))
                    (element "tui-box" None [] (Some 101))
                    eq_refl eq_refl eq_refl)).
    apply not_elem_of_nil.
  - apply (proj2 (nextSibling_cases sample 2 1 (text "a" (Some 1))
                    (element "tui-box" (Some 0) [2; 3] (Some 101))
                    eq_refl eq_refl eq_refl)).
Defined.

Lemma find_ext (f g : nat -> bool) l :
  (forall x, f x = g x) -> List.find f l = List.find g l.
Proof.
  intros Hfg. induction l as [|x l IH]; simpl; [reflexivity|].
  rewrite Hfg, IH. reflexivity.
Qed.

Lemma isTextNode_value h t tn v c :
  h !! t = Some tn ->
  NodeOps.isTextNode (<[t := set_nodeValue v tn]> h) c = NodeOps.isTextNode h c.
Proof.
  intros Ht. unfold NodeOps.isTextNode. rewrite lookup_insert.
  case_decide; [subst; rewrite Ht|]; reflexivity.
Qed.

(** X8: on an element that has a text child, [setElementText] creates no
    node and the last write wins: writing [a] and then [b] gives the
    store that writing [b] alone gives, with [b] as the value of the
    first text child. *)
Theorem setElementText_overwrite (w : World) (node t : nat) (n : DOMNode)
  (a b : string) :
  heap w !! node = Some n ->
  List.find (NodeOps.isTextNode (heap w)) (childNodes n) = Some t ->
  exists w1 w2,
    NodeOps.setElementText node a w = Some (tt, w1) /\
    NodeOps.setElementText node b w1 = Some (tt, w2) /\
    NodeOps.setElementText node b w = Some (tt, w2) /\
    dom (heap w2) = dom (heap w) /\
    nodeValue <$> heap w2 !! t = Some b /\
    effects w2 = effects w.
Proof.
  intros Hn Hfind.
  destruct (find_text_child _ _ _ Hfind) as (_ & tn & Ht & _).
  assert (Hset : forall v,
            NodeOps.setElementText node v w
            = Some (tt, mkWorld (<[t := set_nodeValue v tn]> (heap w))
                                (effects w))).
  { intros v. rewrite (setElementText_unfold _ _ _ _ Hn), Hfind.
    unfold modifyNode. rewrite Ht. reflexivity. }
  set (w1 := mkWorld (<[t := set_nodeValue a tn]> (heap w)) (effects w)).
  exists w1, (mkWorld (<[t := set_nodeValue b tn]> (heap w)) (effects w)).
  split; [apply Hset|]. split; [|split; [apply Hset|]].
  - assert (Hn1 : exists n1, heap w1 !! node = Some n1 /\
                             childNodes n1 = childNodes n).
    { subst w1. cbn [heap]. rewrite lookup_insert. case_decide.
      - subst t. rewrite Hn in Ht. injection Ht as <-.
        eexists. split; [reflexivity|]. destruct n; reflexivity.
      - eexists. split; [exact Hn|reflexivity]. }
    destruct Hn1 as (n1 & Hn1 & Hcs1).
    rewrite (setElementText_unfold _ _ _ _ Hn1), Hcs1.
    subst w1. cbn [heap effects].
    rewrite (find_ext _ (NodeOps.isTextNode (heap w)))
      by (intros c; apply isTextNode_value; exact Ht).
    rewrite Hfind. unfold modifyNode. cbn [heap effects].
    rewrite lookup_insert_eq, insert_insert_eq. reflexivity.
  - cbn [heap effects]. split; [|split; [|reflexivity]].
    + apply dom_insert_lookup_L. eauto.
    + rewrite lookup_insert_eq. reflexivity.
Qed.

Lemma setElementText_overwrite_witness :
  exists w1 w2,
    NodeOps.setElementText 1 "x" sample = Some (tt, w1) /\
    NodeOps.setElementText 1 "y" w1 = Some (tt, w2) /\
    NodeOps.setElementText 1 "y" sample = Some (tt, w2) /\
    dom (heap w2) = dom (heap sample) /\
    nodeValue <$> heap w2 !! 2 = Some "y" /\
    effects w2 = effects sample.
Proof.
  apply (setElementText_overwrite sample 1 2
           (element "tui-box" (Some 0) [2; 3] (Some 101)) "x" "y");
    reflexivity.
Defined.

Lemma same_topology_refl w : same_topology w w.
Proof. intros r. destruct (heap w !! r); constructor. auto. Qed.

Lemma same_topology_insert w el n n' e :
  heap w !! el = Some n ->
  parentNode n' = parentNode n -> childNodes n' = childNodes n ->
  nodeName n' = nodeName n -> yogaNode n' = yogaNode n ->
  same_topology w (mkWorld (<[el := n']> (heap w)) e).
Proof.
  intros Hn H1 H2 H3 H4 r. cbn [heap]. rewrite lookup_insert.
  case_decide.
  - subst r. rewrite Hn. constructor. auto.
  - destruct (heap w !! r); constructor. auto.
Qed.

Lemma same_topology_lookup w w' r n :
  same_topology w w' -> heap w !! r = Some n ->
  exists n', heap w' !! r = Some n' /\
             parentNode n' = parentNode n /\ childNodes n' = childNodes n.
Proof.
  intros H Hr. specialize (H r). rewrite Hr in H.
  inversion H as [? n' (H1 & H2 & _)|]; subst. eauto.
Qed.

Lemma same_topology_lookup_inv w w' r n' :
  same_topology w w' -> heap w' !! r = Some n' ->
  exists n, heap w !! r = Some n /\
            parentNode n' = parentNode n /\ childNodes n' = childNodes n.
Proof.
  intros H Hr. specialize (H r). rewrite Hr in H.
  inversion H as [n ? (H1 & H2 & _)|]; subst. eauto.
Qed.

Lemma same_topology_consistent w w' :
  same_topology w w' -> tree_consistent w -> tree_consistent w'.
Proof.
  intros Hs Ht r n' Hr.
  destruct (same_topology_lookup_inv _ _ _ _ Hs Hr) as (n & Hn & Hp & _).
  specialize (Ht r n Hn). unfold consistent_at in *. rewrite Hp.
  destruct (parentNode n) as [p|]; [|exact I].
  destruct (heap w !! p) as [pn|] eqn:Hpn; [|contradiction].
  destruct (same_topology_lookup _ _ _ _ Hs Hpn) as (pn' & -> & _ & ->).
  exact Ht.
Qed.

Lemma same_topology_closed w w' :
  same_topology w w' -> closed w -> closed w'.
Proof.
  intros Hs Hc r n' Hr.
  destruct (same_topology_lookup_inv _ _ _ _ Hs Hr) as (n & Hn & Hp & Hcs).
  destruct (Hc r n Hn) as [Hcp Hcc]. unfold node_closed. rewrite Hp, Hcs.
  split.
  - destruct (parentNode n) as [p|]; [|exact I]. destruct Hcp as [pn Hpn].
    destruct (same_topology_lookup _ _ _ _ Hs Hpn) as (pn' & -> & _). eauto.
  - eapply Forall_impl; [exact Hcc|]. intros c [cn Hcn].
    destruct (same_topology_lookup _ _ _ _ Hs Hcn) as (cn' & -> & _). eauto.
Qed.

(** X9: whatever the key and the values, [patchProp] leaves the parent
    reference, the child array, the name and the yoga handle of every
    node as they were; so it keeps a store closed and tree-consistent. *)
Theorem patchProp_topology (w w' : World) (el : nat) (key : string)
  (prevValue nextValue : JSValue) :
  NodeOps.patchProp el key prevValue nextValue w = Some (tt, w') ->
  same_topology w w' /\
  (tree_consistent w -> tree_consistent w') /\
  (closed w -> closed w').
Proof.
  intros H.
  assert (Hs : same_topology w w').
  { unfold NodeOps.patchProp in H.
    destruct (String.eqb key "style").
    - unfold bind at 1, modifyNode in H.
      destruct (heap w !! el) as [n|] eqn:Hn; [|discriminate].
      unfold bind, getNode in H. cbn [heap effects] in H.
      rewrite lookup_insert_eq in H.
      assert (Ht : forall e, same_topology w
                     (mkWorld (<[el := set_style nextValue n]> (heap w)) e))
        by (intros e; apply (same_topology_insert _ _ n); auto).
      destruct (yogaNode (set_style nextValue n)); injection H as <-;
        apply Ht.
    - destruct (String.eqb key "internal_transform").
      + unfold modifyNode in H.
        destruct (heap w !! el) as [n|] eqn:Hn; [|discriminate].
        injection H as <-. apply (same_topology_insert _ _ n); auto.
      + injection H as <-. apply same_topology_refl. }
  split; [exact Hs|]. split.
  - apply same_topology_consistent. exact Hs.
  - apply same_topology_closed. exact Hs.
Qed.

Lemma patchProp_topology_witness :
  let w' := result sample
              (NodeOps.patchProp 1 "style" VUndefined (VObj 7) sample) in
  same_topology sample w' /\
  (tree_consistent sample -> tree_consistent w') /\
  (closed sample -> closed w').
Proof.
  intros w'.
  apply (patchProp_topology sample w' 1 "style" VUndefined (VObj 7)).
  vm_compute. reflexivity.
Defined.

End DomLaws.

(** ** Further laws of the lifecycle controller *)

Module LifecycleLaws.
Import Lifecycle LifecycleShape LifecycleFacts.
Local Open Scope list_scope.

(** What a settling function does to an app. *)
Lemma settle_cases f st e a :
  settle f st e a = a \/
  exists p, f = Some p /\ promises a !! p = Some Pending /\
            settle f st e a =
            mkApp (<[p := st]> (promises a)) (exitPromise a)
                  (resolveExitPromise a) (rejectExitPromise a) (interval a)
                  (trace a ++ [e p]).
Proof.
  unfold settle. destruct f as [p|]; [|left; reflexivity].
  destruct (promises a !! p) as [[| |r]|] eqn:Hp; try (left; reflexivity).
  right. exists p. auto.
Qed.

(** The handler rewrites at most one promise, a pending one, and keeps
    the closure variables that name promises. *)
Lemma exitHandler_cases c s a :
  exitPromise (exitHandler c s a) = exitPromise a /\
  resolveExitPromise (exitHandler c s a) = resolveExitPromise a /\
  rejectExitPromise (exitHandler c s a) = rejectExitPromise a /\
  (promises (exitHandler c s a) = promises a \/
   exists p st, promises a !! p = Some Pending /\
                (resolveExitPromise a = Some p \/ rejectExitPromise a = Some p) /\
                promises (exitHandler c s a) = <[p := st]> (promises a)).
Proof.
  unfold exitHandler. cbn [interval log].
  destruct (codeNotZero c), (interval a) as [t|]; cbn [exitPromise
    resolveExitPromise rejectExitPromise promises log]; auto.
  set (a1 := log (ClearInterval t) (log (ConsoleLog c s) a)).
  assert (Hsame : promises a1 = promises a /\ exitPromise a1 = exitPromise a /\
                  resolveExitPromise a1 = resolveExitPromise a /\
                  rejectExitPromise a1 = rejectExitPromise a)
    by (repeat split).
  destruct Hsame as (Hp & He & Hres & Hrej).
  destruct (isSIGINT s); unfold callResolve, callReject.
  - destruct (settle_cases (resolveExitPromise a1) Fulfilled Resolved a1)
      as [->|(p & Hf & Hpend & ->)]; cbn [unmount log exitPromise
        resolveExitPromise rejectExitPromise promises]; auto.
    repeat split; auto. right. exists p, Fulfilled.
    rewrite <- Hp, <- Hres. auto.
  - destruct (settle_cases (rejectExitPromise a1)
                (Rejected (newTuiError c s))
                (fun p => RejectedWith p (newTuiError c s)) a1)
      as [->|(p & Hf & Hpend & ->)]; cbn [unmount log exitPromise
        resolveExitPromise rejectExitPromise promises]; auto.
    repeat split; auto. right. exists p, (Rejected (newTuiError c s)).
    rewrite <- Hp, <- Hrej. auto.
Qed.

Lemma createApp_bound o : bound (createApp o).
Proof.
  unfold createApp, bound.
  destruct (match opt_waitUntilExit o with Some b => b | None => true end);
    repeat split.
Qed.

Lemma step_bound a op : bound a -> bound (step a op).
Proof.
  intros Hb. destruct op; cbn [step].
  - exact Hb.
  - exact Hb.
  - unfold waitUntilExit. unfold bound in Hb.
    destruct (exitPromise a) as [p|] eqn:He; cbn [snd].
    + unfold bound. rewrite He. exact Hb.
    + destruct Hb as (_ & _ & Hp). unfold bound. cbn. rewrite Hp.
      repeat split.
  - destruct (exitHandler_cases c s a) as (He & Hres & Hrej & Hp).
    unfold bound in *. rewrite He, Hres, Hrej.
    destruct Hp as [->|(p & st & _ & _ & ->)]; [exact Hb|].
    rewrite length_insert.
    destruct (exitPromise a); [exact Hb|].
    destruct Hb as (Hr & Hj & Hnil). rewrite Hnil. repeat split; auto.
Qed.

Lemma reachable_bound o ops : bound (run ops (createApp o)).
Proof.
  generalize (createApp o) (createApp_bound o).
  induction ops as [|op ops IH]; intros a Ha; [exact Ha|].
  apply IH. apply step_bound. exact Ha.
Qed.

(** X10: in every state an app can be in, no more than one promise has
    been made, and the settling functions are no-ops until
    [waitUntilExit()] is first called and belong to its promise from
    then on. *)
Theorem run_bound (o : TuiAppOptions) (ops : list Op) :
  bound (run ops (createApp o)) /\
  length (promises (run ops (createApp o))) <= 1.
Proof.
  pose proof (reachable_bound o ops) as Hb.
  split; [exact Hb|]. unfold bound in Hb.
  destruct (exitPromise _).
  - destruct Hb as (_ & _ & _ & ->). lia.
  - destruct Hb as (_ & _ & ->). simpl. lia.
Qed.

Lemma step_settled a op q st :
  promises a !! q = Some st -> st <> Pending ->
  promises (step a op) !! q = Some st.
Proof.
  intros Hq Hst. destruct op; cbn [step]; try exact Hq.
  - unfold waitUntilExit. destruct (exitPromise a); [exact Hq|].
    cbn. apply lookup_app_l_Some. exact Hq.
  - destruct (exitHandler_cases c s a) as (_ & _ & _ & Hp).
    destruct Hp as [->|(p & st' & Hpend & _ & ->)]; [exact Hq|].
    rewrite list_lookup_insert_ne; [exact Hq|]. intros ->. congruence.
Qed.

(** X11: a promise settles at most once: a promise that was fulfilled or
    rejected keeps that state whatever is called on the app afterwards,
    further termination notifications included. *)
Theorem settled_forever (ops : list Op) (a : App) (q : nat)
  (st : PromiseState) :
  promises a !! q = Some st -> st <> Pending ->
  promises (run ops a) !! q = Some st.
Proof.
  revert a. induction ops as [|op ops IH]; intros a Hq Hst; [exact Hq|].
  apply IH; [|exact Hst]. apply step_settled; assumption.
Qed.

Lemma settled_forever_witness :
  let a := exitHandler None (Some "SIGINT")
             (snd (waitUntilExit (createApp (mkOptions None)))) in
  promises (run [OpExit (Some 1%Z) None; OpUnmount; OpExit None (Some "SIGTERM")]
                a) !! 0 = Some Fulfilled.
Proof.
  intros a. apply (settled_forever _ a 0 Fulfilled).
  - reflexivity.
  - discriminate.
Defined.

Lemma run_all_pending ops : forall a,
  forallb (fun op => negb (isExit op)) ops = true ->
  Forall (eq Pending) (promises a) ->
  Forall (eq Pending) (promises (run ops a)).
Proof.
  induction ops as [|op ops IH]; intros a Hops Ha; [exact Ha|].
  simpl in Hops. apply andb_prop in Hops as [Hop Hops].
  apply IH; [exact Hops|].
  destruct op; cbn [step]; try exact Ha; [|discriminate].
  unfold waitUntilExit. destruct (exitPromise a); [exact Ha|].
  cbn. apply Forall_app. split; [exact Ha|]. repeat constructor.
Qed.

(** X12: from [createApp] to the settlement. On an app built without
    [waitUntilExit: false], after any calls that include no termination
    notification, the promise that [waitUntilExit()] returns is settled
    by a notification whose code is not [0]: fulfilled on SIGINT,
    rejected with the [TuiError] of that code and signal otherwise. *)
Theorem exit_after_wait (o : TuiAppOptions) (before : list Op)
  (c : option Z) (s : option string) :
  opt_waitUntilExit o <> Some false ->
  forallb (fun op => negb (isExit op)) before = true ->
  codeNotZero c = true ->
  let a := run before (createApp o) in
  let p := fst (waitUntilExit a) in
  let a1 := snd (waitUntilExit a) in
  promises (exitHandler c s a1) !! p
  = Some (if isSIGINT s then Fulfilled else Rejected (newTuiError c s)).
Proof.
  intros Ho Hbefore Hc a p a1.
  assert (Hi : interval a1 = Some keepAlive).
  { subst a1. change (interval (step a OpWaitUntilExit) = Some keepAlive).
    rewrite step_interval. subst a. rewrite run_interval. unfold createApp.
    destruct (opt_waitUntilExit o) as [[|]|]; try reflexivity. congruence. }
  assert (Hw : waiting a1 p).
  { destruct (exitPromise a) as [p0|] eqn:He.
    - pose proof (reachable_bound o before) as Hb. fold a in Hb.
      unfold bound in Hb. rewrite He in Hb.
      destruct Hb as (-> & Hres & Hrej & Hlen).
      assert (Hp : promises a !! 0 = Some Pending).
      { pose proof (run_all_pending before (createApp o) Hbefore) as Hall.
        fold a in Hall. destruct (promises a) as [|x l]; [discriminate|].
        assert (Hx : Forall (eq Pending) (x :: l)).
        { apply Hall. unfold createApp.
          destruct (match opt_waitUntilExit o with
                    | Some b => b | None => true end); constructor. }
        apply Forall_cons in Hx as [<- _]. reflexivity. }
      subst p a1. unfold waitUntilExit. rewrite He. cbn [fst snd].
      repeat split; assumption.
    - apply waitUntilExit_waiting. exact He. }
  rewrite (exitHandler_settles c s a1 p keepAlive Hi Hw Hc). cbn [promises].
  apply list_lookup_insert_eq.
  destruct Hw as (_ & _ & _ & Hp). eapply lookup_lt_Some. exact Hp.
Qed.

Lemma exit_after_wait_witness :
  let a := run [OpMount; OpWaitUntilExit] (createApp (mkOptions None)) in
  promises (exitHandler (Some 2%Z) None (snd (waitUntilExit a)))
    !! fst (waitUntilExit a)
  = Some (Rejected (newTuiError (Some 2%Z) None)).
Proof.
  intros a.
  apply (exit_after_wait (mkOptions None) [OpMount; OpWaitUntilExit]
           (Some 2%Z) None).
  - discriminate.
  - reflexivity.
  - reflexivity.
Defined.

Lemma run_no_wait ops : forall a,
  forallb (fun op => negb (isWait op)) ops = true ->
  exitPromise a = None -> exitPromise (run ops a) = None.
Proof.
  induction ops as [|op ops IH]; intros a Hops Ha; [exact Ha|].
  simpl in Hops. apply andb_prop in Hops as [Hop Hops].
  apply IH; [exact Hops|].
  destruct op; cbn [step]; try exact Ha; [discriminate|].
  rewrite exitHandler_exitPromise. exact Ha.
Qed.

(** X13: a termination notification that arrives before
    [waitUntilExit()] was ever called settles nothing, whatever its code
    and signal; the promise that a later [waitUntilExit()] returns is
    pending, and stays so as long as no further notification comes. *)
Theorem wait_after_exit (o : TuiAppOptions) (before later : list Op)
  (c : option Z) (s : option string) :
  forallb (fun op => negb (isWait op)) before = true ->
  forallb (fun op => negb (isExit op)) later = true ->
  let a := exitHandler c s (run before (createApp o)) in
  let p := fst (waitUntilExit a) in
  promises a = [] /\
  promises (run later (snd (waitUntilExit a))) !! p = Some Pending.
Proof.
  intros Hbefore Hlater a p.
  assert (He : exitPromise a = None).
  { subst a. rewrite exitHandler_exitPromise.
    apply run_no_wait; [exact Hbefore|].
    unfold createApp.
    destruct (match opt_waitUntilExit o with
              | Some b => b | None => true end); reflexivity. }
  split.
  - pose proof (reachable_bound o (before ++ [OpExit c s])) as Hb.
    unfold run in Hb. rewrite fold_left_app in Hb. cbn [fold_left step] in Hb.
    fold (run before (createApp o)) in Hb. fold a in Hb.
    unfold bound in Hb. rewrite He in Hb. apply Hb.
  - apply run_promise_stable; [exact Hlater|].
    apply (waitUntilExit_waiting a He).
Qed.

Lemma wait_after_exit_witness :
  let a := exitHandler None (Some "SIGINT")
             (run [OpMount] (createApp (mkOptions None))) in
  promises a = [] /\
  promises (run [OpUnmount; OpWaitUntilExit] (snd (waitUntilExit a)))
    !! fst (waitUntilExit a) = Some Pending.
Proof.
  intros a.
  apply (wait_after_exit (mkOptions None) [OpMount]
           [OpUnmount; OpWaitUntilExit] None (Some "SIGINT"));
    reflexivity.
Defined.

(** X14: whenever the guard of the handler holds (code not [0], interval
    present), the handler clears the interval, shows the cursor and runs
    [unmount()], whether or not a promise is waiting; between clearing
    and showing it logs at most one settlement. *)
Theorem exitHandler_cleanup (a : App) (t : nat) (c : option Z)
  (s : option string) :
  codeNotZero c = true -> interval a = Some t ->
  exists settled,
    length settled <= 1 /\
    trace (exitHandler c s a)
    = trace a ++ [ConsoleLog c s; ClearInterval t] ++ settled
              ++ CursorShow :: unmountEvents.
Proof.
  intros Hc Hi. unfold exitHandler. cbn [interval log]. rewrite Hc, Hi.
  set (a1 := log (ClearInterval t) (log (ConsoleLog c s) a)).
  assert (Ht1 : trace a1 = trace a ++ [ConsoleLog c s; ClearInterval t]).
  { subst a1. cbn [trace log]. rewrite <- app_assoc. reflexivity. }
  assert (Hgen : forall a2,
            (trace a2 = trace a1 \/ exists e, trace a2 = trace a1 ++ [e]) ->
            exists settled,
              length settled <= 1 /\
              trace (unmount (log CursorShow a2))
              = trace a ++ [ConsoleLog c s; ClearInterval t] ++ settled
                        ++ CursorShow :: unmountEvents).
  { intros a2 [H2|[e H2]].
    - exists []. split; [simpl; lia|]. cbn [unmount log trace].
      rewrite H2, Ht1. repeat rewrite <- app_assoc. reflexivity.
    - exists [e]. split; [simpl; lia|]. cbn [unmount log trace].
      rewrite H2, Ht1. repeat rewrite <- app_assoc. reflexivity. }
  destruct (isSIGINT s); unfold callResolve, callReject; apply Hgen.
  - destruct (settle_cases (resolveExitPromise a1) Fulfilled Resolved a1)
      as [->|(p & _ & _ & ->)]; [left; reflexivity|right; eexists; reflexivity].
  - destruct (settle_cases (rejectExitPromise a1)
                (Rejected (newTuiError c s))
                (fun p => RejectedWith p (newTuiError c s)) a1)
      as [->|(p & _ & _ & ->)]; [left; reflexivity|right; eexists; reflexivity].
Qed.

Lemma exitHandler_cleanup_witness :
  exists settled,
    length settled <= 1 /\
    trace (exitHandler (Some 1%Z) None (createApp (mkOptions None)))
    = trace (createApp (mkOptions None))
      ++ [ConsoleLog (Some 1%Z) None; ClearInterval keepAlive] ++ settled
      ++ CursorShow :: unmountEvents.
Proof.
  apply (exitHandler_cleanup (createApp (mkOptions None)) keepAlive
           (Some 1%Z) None); reflexivity.
Defined.

End LifecycleLaws.

(** ** The tree under [insert] and [remove] *)

Module DomTree.
Import JsArray Dom DomSpec DomShape JsArrayFacts DomFacts DomLaws.
Local Open Scope list_scope.

Lemma unhook_from_lookup el q h r :
  unhook_from el q h !! r = unhooked el q r <$> h !! r.
Proof.
  unfold unhook_from, unhooked, unhook. destruct q as [q|].
  - rewrite lookup_alter. case_decide; subst; destruct (h !! r); reflexivity.
  - destruct (h !! r); reflexivity.
Qed.

Lemma unhooked_parent el q r x : parentNode (unhooked el q r x) = parentNode x.
Proof.
  unfold unhooked. destruct q as [q|]; [|reflexivity].
  case_decide; destruct x; reflexivity.
Qed.

Lemma unhooked_children el q r x :
  childNodes (unhooked el q r x)
  = if decide (q = Some r) then removeFirst el (childNodes x)
    else childNodes x.
Proof.
  unfold unhooked. destruct q as [q|].
  - repeat case_decide; try congruence; destruct x; reflexivity.
  - rewrite decide_False by discriminate. reflexivity.
Qed.

Lemma insertNode_is_Some parent el anchor w r :
  insertNode parent el anchor w = Some r ->
  exists n, heap w !! el = Some n /\ is_Some (heap w !! parent) /\
            match parentNode n with
            | Some q => is_Some (heap w !! q)
            | None => True
            end.
Proof.
  unfold insertNode. unfold bind at 1, getNode at 1.
  destruct (heap w !! el) as [n|] eqn:Hn; [|discriminate].
  unfold bind at 1. intros H. exists n. split; [reflexivity|].
  destruct (parentNode n) as [q|].
  - unfold bind at 1, getNode at 1 in H.
    destruct (heap w !! q) as [qn|] eqn:Hqn; [|discriminate].
    rewrite (excise_alter _ _ _ _ Hqn) in H.
    unfold bind at 1, getNode at 1 in H. cbn [heap] in H.
    destruct (unhook el q (heap w) !! parent) as [pn|] eqn:Hp; [|discriminate].
    split; [|eauto]. apply (unhook_is_Some el q). eauto.
  - unfold ret at 1 in H. unfold bind at 1, getNode at 1 in H.
    destruct (heap w !! parent) as [pn|]; [|discriminate]. eauto.
Qed.

(** After the excision [el] is in no child array, and nothing else moved. *)
Lemma unhooked_entries w el n r x c :
  backlinked w -> heap w !! el = Some n -> heap w !! r = Some x ->
  let cs := childNodes (unhooked el (parentNode n) r x) in
  (el ∉ cs) /\
  (c <> el ->
   (c ∈ cs <-> c ∈ childNodes x) /\
   count_occ Nat.eq_dec cs c = count_occ Nat.eq_dec (childNodes x) c).
Proof.
  intros Hb Hn Hr cs. subst cs. rewrite unhooked_children.
  pose proof (Hb r x Hr) as Hrb. unfold backlinked_at in Hrb.
  rewrite Forall_forall in Hrb.
  case_decide as Hq.
  - split.
    + destruct (decide (el ∈ childNodes x)) as [Hin|Hnin].
      * apply removeFirst_once. apply (Hrb el Hin).
      * rewrite removeFirst_absent by exact Hnin. exact Hnin.
    + intros Hc. split; [split|].
      * intros H. eapply elem_of_sublist; [exact H|apply removeFirst_sublist].
      * apply removeFirst_elem_of. exact Hc.
      * apply removeFirst_count_ne. exact Hc.
  - split; [|intros _; split; reflexivity].
    intros Hin. destruct (Hrb el Hin) as [_ Hpar].
    rewrite Hn in Hpar. simpl in Hpar. congruence.
Qed.

Lemma insertNode_well_formed parent el anchor w w' :
  well_formed w ->
  insertNode parent el anchor w = Some (tt, w') -> well_formed w'.
Proof.
  intros [Ht Hb] H.
  destruct (insertNode_is_Some _ _ _ _ _ H) as (n & Hn & Hparent & Hq).
  rewrite (insertNode_spec _ _ _ _ _ Hn Hparent Hq) in H. injection H as <-.
  fold (unhook_from el (parentNode n) (heap w)).
  destruct Hparent as [pn Hpn].
  assert (Hlook : forall r,
            link parent el anchor (unhook_from el (parentNode n) (heap w)) !! r
            = (fun x => linked parent el anchor r
                          (unhooked el (parentNode n) r x)) <$> heap w !! r).
  { intros r. rewrite link_lookup, unhook_from_lookup.
    destruct (heap w !! r); reflexivity. }
  assert (Hpar : forall r x,
            heap w !! r = Some x -> r <> el ->
            parentNode (linked parent el anchor r
                          (unhooked el (parentNode n) r x)) = parentNode x).
  { intros r x _ Hne. rewrite linked_parent, unhooked_parent.
    rewrite decide_False by congruence. reflexivity. }
  split.
  - (* parent references name a holder *)
    intros r n' Hr. cbn [heap] in Hr |- *. rewrite Hlook in Hr.
    destruct (heap w !! r) as [x|] eqn:Hx; [|discriminate].
    simpl in Hr. injection Hr as <-. unfold consistent_at.
    destruct (decide (r = el)) as [->|Hne].
    + rewrite linked_parent, decide_True by reflexivity.
      rewrite Hlook, Hpn. simpl. rewrite linked_children.
      rewrite decide_True by reflexivity.
      destruct (unhooked_entries w el n parent pn el Hb Hn Hpn) as [Habs _].
      split; [apply inserted_elem_of; left; reflexivity|].
      rewrite inserted_count, decide_True by reflexivity.
      rewrite (proj1 (count_occ_not_In Nat.eq_dec _ el)); [lia|].
      rewrite <- list_elem_of_In. exact Habs.
    + rewrite (Hpar r x Hx Hne).
      specialize (Ht r x Hx). unfold consistent_at in Ht.
      destruct (parentNode x) as [p|]; [|exact I].
      rewrite Hlook.
      destruct (heap w !! p) as [px|] eqn:Hpx; [|contradiction]. simpl.
      destruct Ht as [Hin Hcnt].
      destruct (unhooked_entries w el n p px r Hb Hn Hpx) as [_ Hsame].
      destruct (Hsame Hne) as [Hmem Hcount].
      rewrite linked_children. case_decide.
      * split; [apply inserted_elem_of; right; apply Hmem; exact Hin|].
        rewrite inserted_count, decide_False by congruence. simpl.
        rewrite Hcount. exact Hcnt.
      * split; [apply Hmem; exact Hin|]. rewrite Hcount. exact Hcnt.
  - (* array entries name their holder *)
    intros p pn' Hp. cbn [heap] in Hp |- *. rewrite Hlook in Hp.
    destruct (heap w !! p) as [px|] eqn:Hpx; [|discriminate].
    simpl in Hp. injection Hp as <-. unfold backlinked_at.
    apply Forall_forall. intros c Hc. rewrite linked_children in Hc |- *.
    pose proof (Hb p px Hpx) as Hpb. unfold backlinked_at in Hpb.
    rewrite Forall_forall in Hpb.
    destruct (unhooked_entries w el n p px c Hb Hn Hpx) as [Habs Hsame].
    destruct (decide (c = el)) as [->|Hne].
    + (* the inserted node itself *)
      destruct (decide (parent = p)) as [->|Hpp]; [|contradiction].
      split.
      * rewrite inserted_count, decide_True by reflexivity.
        rewrite (proj1 (count_occ_not_In Nat.eq_dec _ el)); [lia|].
        rewrite <- list_elem_of_In. exact Habs.
      * rewrite Hlook, Hn. simpl. rewrite linked_parent.
        rewrite decide_True by reflexivity. reflexivity.
    + destruct (Hsame Hne) as [Hmem Hcount].
      assert (Hc0 : c ∈ childNodes px).
      { apply Hmem. destruct (decide (parent = p)); [|exact Hc].
        apply inserted_elem_of in Hc as [Hc|Hc]; [contradiction|exact Hc]. }
      destruct (Hpb c Hc0) as [Hcnt Hcpar].
      split.
      * destruct (decide (parent = p)).
        -- rewrite inserted_count, decide_False by congruence. simpl.
           rewrite Hcount. exact Hcnt.
        -- rewrite Hcount. exact Hcnt.
      * rewrite Hlook. destruct (heap w !! c) as [cx|] eqn:Hcx; [|discriminate].
        simpl in Hcpar |- *. rewrite (Hpar c cx Hcx Hne). exact Hcpar.
Qed.

Lemma removeFirst_inserted anchor el cs :
  el ∉ cs -> removeFirst el (inserted anchor el cs) = cs.
Proof.
  intros Habs. destruct (inserted_split anchor el cs) as (l1 & l2 & Hcs & ->).
  subst cs. apply removeFirst_first. intros Hin. apply Habs.
  apply elem_of_app. left. exact Hin.
Qed.

Lemma linked_again parent el anchor r u :
  el ∉ childNodes u ->
  linked parent el anchor r
    (unhooked el (Some parent) r (linked parent el anchor r u))
  = linked parent el anchor r u.
Proof.
  intros Habs. destruct u as [name value par cs st tr yg].
  unfold linked, unhooked. simpl in *.
  destruct (decide (parent = r)), (decide (el = r)); simpl;
    rewrite ?removeFirst_inserted by exact Habs; reflexivity.
Qed.

(** The modelled [insertNode] meets section 4.2: on a store of tree
    shape, the call made a second time changes nothing. *)
Lemma insertNode_idempotent parent el anchor w w1 :
  well_formed w ->
  insertNode parent el anchor w = Some (tt, w1) ->
  insertNode parent el anchor w1 = Some (tt, w1).
Proof.
  intros [Ht Hb] H.
  destruct (insertNode_is_Some _ _ _ _ _ H) as (n & Hn & Hparent & Hq).
  rewrite (insertNode_spec _ _ _ _ _ Hn Hparent Hq) in H. injection H as <-.
  fold (unhook_from el (parentNode n) (heap w)).
  destruct Hparent as [pn Hpn].
  set (h1 := link parent el anchor (unhook_from el (parentNode n) (heap w))).
  assert (Hlook : forall r,
            h1 !! r = (fun x => linked parent el anchor r
                                  (unhooked el (parentNode n) r x))
                      <$> heap w !! r).
  { intros r. unfold h1. rewrite link_lookup, unhook_from_lookup.
    destruct (heap w !! r); reflexivity. }
  assert (Hel : h1 !! el = Some (linked parent el anchor el
                                   (unhooked el (parentNode n) el n)))
    by (rewrite Hlook, Hn; reflexivity).
  rewrite (insertNode_spec (mkWorld h1 (effects w)) parent el anchor _ Hel);
    cbn [heap effects].
  - rewrite linked_parent, decide_True by reflexivity.
    do 3 f_equal. apply map_eq. intros r.
    fold (unhook_from el (Some parent) h1).
    rewrite link_lookup, unhook_from_lookup, Hlook.
    destruct (heap w !! r) as [x|] eqn:Hx; [|reflexivity]. simpl. f_equal.
    destruct (unhooked_entries w el n r x el Hb Hn Hx) as [Habs _].
    apply linked_again. exact Habs.
  - rewrite Hlook, Hpn. simpl. eauto.
  - rewrite linked_parent, decide_True by reflexivity.
    rewrite Hlook, Hpn. simpl. eauto.
Qed.

Lemma removeNode_well_formed fuel node w w' :
  well_formed w -> removeNode fuel node w = Some (tt, w') -> well_formed w'.
Proof.
  intros [Ht Hb] H. split.
  - eapply removeNode_consistent; eassumption.
  - revert Hb H. apply (removeNode_preserves backlinked).
    intros r w1 w2. apply detach_backlinked.
Qed.

(** C3: from a store that has the tree shape of the data model (parent
    references and child arrays agree both ways, no entry twice), every
    sequence of [insert] and [remove] calls ends in a store of that
    shape: every non-null parent reference names a node whose child
    array holds the node, once. *)
Theorem reach_well_formed (w0 w : World) :
  well_formed w0 -> reach w0 w ->
  tree_consistent w /\ backlinked w.
Proof.
  intros H0 Hreach.
  induction Hreach as [|w w' el parent anchor _ IH Hins
                       |w w' fuel node _ IH Hrem].
  - exact H0.
  - eapply insertNode_well_formed; [exact IH|exact Hins].
  - eapply removeNode_well_formed; [exact IH|exact Hrem].
Qed.

Lemma reach_well_formed_witness :
  let w1 := result parts (NodeOps.insert 1 0 None parts) in
  let w2 := result w1 (NodeOps.insert 2 1 None w1) in
  let w3 := result w2 (NodeOps.insert 3 1 (Some 2) w2) in
  let w4 := result w3 (NodeOps.insert 2 1 (Some 3) w3) in
  let w5 := result w4 (NodeOps.insert 2 1 (Some 3) w4) in
  let w6 := result w5 (NodeOps.remove 1 3 w5) in
  (tree_consistent w6 /\ backlinked w6) /\
  childNodes <$> heap w5 !! 1 = Some [2; 3] /\
  childNodes <$> heap w6 !! 1 = Some [2] /\
  parentNode <$> heap w6 !! 2 = Some (Some 1) /\
  parentNode <$> heap w6 !! 1 = Some (Some 0).
Proof.
  intros w1 w2 w3 w4 w5 w6. split; [|vm_compute; repeat split].
  apply (reach_well_formed parts w6).
  - apply (bool_decide_unpack _). vm_compute. exact I.
  - apply (reach_remove parts w5 w6 1 3); [|vm_compute; reflexivity].
    apply (reach_insert parts w4 w5 2 1 (Some 3)); [|vm_compute; reflexivity].
    apply (reach_insert parts w3 w4 2 1 (Some 3)); [|vm_compute; reflexivity].
    apply (reach_insert parts w2 w3 3 1 (Some 2)); [|vm_compute; reflexivity].
    apply (reach_insert parts w1 w2 2 1 None); [|vm_compute; reflexivity].
    apply (reach_insert parts parts w1 1 0 None); [|vm_compute; reflexivity].
    apply reach_start.
Defined.

End DomTree.
